(** * AI LoreCrafter front end: scene graph, asset loader and scene flow

    A shallow embedding of the TypeScript client
    ([client/src/utils/api.ts], [client/src/utils/assetLoader.ts],
    [client/src/scenes/*.ts], [client/src/index.ts]) together with the
    properties its design document states about it.

    Conventions of the embedding:
    - a JavaScript object used as a dictionary ([Record<string, Scene>],
      [Map<string, AssetInfo>], [localStorage]) is a [gmap string _];
    - an optional field ([images?], [url?], [prompt?]) is an [option];
    - JavaScript truthiness of an optional string is [truthy]: present and
      not the empty string;
    - code that can throw returns a [result]; [try ... catch] is [try_catch];
    - an [async] function whose awaits are sequential is the function of
      its settled value. *)

From Stdlib Require Import Ascii String QArith Qminmax.
From stdpp Require Import gmap strings list fin_maps relations pretty.

#[local] Set Warnings "-clear-no-such-hyp".

Close Scope Q_scope.

(** ** Exceptions *)

Inductive result (E A : Type) : Type :=
| Ok (a : A)
| Throw (e : E).
Arguments Ok {E A} a.
Arguments Throw {E A} e.

#[global] Instance result_ret {E} : MRet (result E) := λ A a, Ok a.

#[global] Instance result_bind {E} : MBind (result E) := λ A B k r,
  match r with
  | Ok a => k a
  | Throw e => Throw e
  end.

Definition try_catch {E F A} (body : result E A) (handler : E → result F A)
  : result F A :=
  match body with
  | Ok a => Ok a
  | Throw e => handler e
  end.

(** What a JavaScript [catch] clause can receive. *)
Inductive JSError : Type :=
| AxiosError (message : string)
| TypeError (message : string)
| URIError (message : string)
| SyntaxError (message : string)
| Error (message : string).

(** ** Strings *)

(** The line feed written [\n] in a template literal. *)
Definition LF : string := String "010"%char "".

(** [s] is truthy: in a condition, the empty string counts as false. *)
Definition truthy (o : option string) : bool :=
  match o with
  | Some s => negb (String.eqb s "")
  | None => false
  end.

(** [a || b] on optional strings. *)
Definition or_else (a b : option string) : option string :=
  if truthy a then a else b.

(** ** api.ts: types *)

Record NPC := { npc_name : string; npc_trait : string }.

Record GameImages := {
  img_avatar : option string;
  img_background : option string;
  img_npc : option string
}.

Record GameData := {
  setting : string;
  protagonist_role : string;
  objective : string;
  twist : string;
  npc : NPC;
  hook : string;
  quest_offer : string;
  choice_a : string;
  choice_b : string;
  challenge_intro : string;
  climax : string;
  ending_good : string;
  ending_bad : string;
  epilogue : string;
  images : option GameImages
}.

Record DialogueOption := { opt_text : string; opt_next_scene : string }.

Record NPCLegacy := {
  npcl_name : string;
  npcl_description : string;
  npcl_portrait_prompt : string
}.

Inductive SceneType := avatar | dialogue | obstacle_run | conclusion.

Record AvatarScene := {
  av_scene_id : string;
  av_title : string;
  av_description : string;
  avatar_prompt : string;
  av_next_scene : string
}.

Record DialogueScene := {
  dl_scene_id : string;
  dl_title : string;
  dl_description : string;
  dl_background_prompt : string;
  dl_npc : option NPCLegacy;
  dialogue_text : string;
  options : list DialogueOption
}.

Record ObstacleRunScene := {
  ob_scene_id : string;
  ob_title : string;
  ob_description : string;
  ob_background_prompt : string;
  obstacle_prompt : string;
  difficulty : Z;
  success_scene : string;
  failure_scene : string
}.

Record ConclusionScene := {
  cn_scene_id : string;
  cn_title : string;
  cn_description : string;
  cn_background_prompt : string;
  conclusion_text : string;
  is_good_ending : bool;
  cn_next_scene : option string
}.

(** [type Scene = AvatarScene | DialogueScene | ObstacleRunScene | ConclusionScene] *)
Inductive Scene :=
| SAvatar (s : AvatarScene)
| SDialogue (s : DialogueScene)
| SObstacleRun (s : ObstacleRunScene)
| SConclusion (s : ConclusionScene).

Definition scene_type (s : Scene) : SceneType :=
  match s with
  | SAvatar _ => avatar
  | SDialogue _ => dialogue
  | SObstacleRun _ => obstacle_run
  | SConclusion _ => conclusion
  end.

Record SceneDSL := {
  scenes : gmap string Scene;
  initial_scene : string;
  game_title : string;
  game_description : string
}.

(** [LegacyGameResponse], with the [game_data] property that
    [convertToSceneStructure] attaches through an [any] cast. *)
Record LegacyGameResponse := {
  scene_dsl : SceneDSL;
  prompt : string;
  game_data : option GameData
}.

(** ** api.ts: convertToSceneStructure *)

Definition STYLE : string :=
  ", pixel art style, 8-color palette, 2px outline, flat shading".

Definition avatarScene (gameData : GameData) : AvatarScene := {|
  av_scene_id := "avatar_creation";
  av_title := "Create Your Hero";
  av_description :=
    "You are a " +:+ protagonist_role gameData +:+ " in " +:+ setting gameData;
  avatar_prompt :=
    "A " +:+ protagonist_role gameData +:+ " character in "
      +:+ setting gameData +:+ STYLE;
  av_next_scene := "quest_start"
|}.

Definition questScene (gameData : GameData) : DialogueScene := {|
  dl_scene_id := "quest_start";
  dl_title := "The Quest Begins";
  dl_description := hook gameData;
  dl_background_prompt := setting gameData +:+ " background scene" +:+ STYLE;
  dl_npc := Some {|
    npcl_name := npc_name (npc gameData);
    npcl_description := "A " +:+ npc_trait (npc gameData) +:+ " character";
    npcl_portrait_prompt :=
      npc_name (npc gameData) +:+ ", a " +:+ npc_trait (npc gameData)
        +:+ " character, pixel art portrait, 8-color palette, 2px outline, flat shading"
  |};
  dialogue_text := quest_offer gameData;
  options := [
    {| opt_text := choice_a gameData; opt_next_scene := "challenge_a" |};
    {| opt_text := choice_b gameData; opt_next_scene := "challenge_b" |}
  ]
|}.

Definition challengeScene (gameData : GameData) : ObstacleRunScene := {|
  ob_scene_id := "challenge_a";
  ob_title := "The Challenge";
  ob_description := challenge_intro gameData;
  ob_background_prompt := setting gameData +:+ " challenge area" +:+ STYLE;
  obstacle_prompt := "Obstacles in " +:+ setting gameData +:+ STYLE;
  difficulty := 3;
  success_scene := "good_ending";
  failure_scene := "bad_ending"
|}.

Definition challengeSceneB (gameData : GameData) : ObstacleRunScene := {|
  ob_scene_id := "challenge_b";
  ob_title := "The Alternative Path";
  ob_description := challenge_intro gameData;
  ob_background_prompt := setting gameData +:+ " alternative path" +:+ STYLE;
  obstacle_prompt := "Different obstacles in " +:+ setting gameData +:+ STYLE;
  difficulty := 2;
  success_scene := "good_ending";
  failure_scene := "bad_ending"
|}.

Definition goodEnding (gameData : GameData) : ConclusionScene := {|
  cn_scene_id := "good_ending";
  cn_title := "Victory!";
  cn_description := ending_good gameData;
  cn_background_prompt := "Victory scene in " +:+ setting gameData +:+ STYLE;
  conclusion_text :=
    climax gameData +:+ LF +:+ LF +:+ ending_good gameData
      +:+ LF +:+ LF +:+ epilogue gameData;
  is_good_ending := true;
  cn_next_scene := None
|}.

Definition badEnding (gameData : GameData) : ConclusionScene := {|
  cn_scene_id := "bad_ending";
  cn_title := "Defeat";
  cn_description := ending_bad gameData;
  cn_background_prompt := "Defeat scene in " +:+ setting gameData +:+ STYLE;
  conclusion_text := climax gameData +:+ LF +:+ LF +:+ ending_bad gameData;
  is_good_ending := false;
  cn_next_scene := None
|}.

(** The six assignments [scenes[id] = ...], in program order. *)
Definition convertToSceneStructure (gameData : GameData) (prompt : string)
  : LegacyGameResponse :=
  let scenes : gmap string Scene := ∅ in
  let scenes := <["avatar_creation" := SAvatar (avatarScene gameData)]> scenes in
  let scenes := <["quest_start" := SDialogue (questScene gameData)]> scenes in
  let scenes := <["challenge_a" := SObstacleRun (challengeScene gameData)]> scenes in
  let scenes := <["challenge_b" := SObstacleRun (challengeSceneB gameData)]> scenes in
  let scenes := <["good_ending" := SConclusion (goodEnding gameData)]> scenes in
  let scenes := <["bad_ending" := SConclusion (badEnding gameData)]> scenes in
  {| scene_dsl := {|
       scenes := scenes;
       initial_scene := "avatar_creation";
       game_title := protagonist_role gameData +:+ " of " +:+ setting gameData;
       game_description := objective gameData +:+ " - " +:+ hook gameData
     |};
     prompt := prompt;
     game_data := Some gameData |}.

(** ** Transition references of the scene graph *)

(** Every scene id a scene record names as a successor. *)
Definition scene_refs (s : Scene) : list string :=
  match s with
  | SAvatar a => [av_next_scene a]
  | SDialogue d => opt_next_scene <$> options d
  | SObstacleRun o => [success_scene o; failure_scene o]
  | SConclusion c => option_list (cn_next_scene c)
  end.

(** One edge of the graph: [b] is named by the record stored under [a]. *)
Definition dsl_step (dsl : SceneDSL) (a b : string) : Prop :=
  ∃ s, scenes dsl !! a = Some s ∧ b ∈ scene_refs s.

(** No reference of any stored record points outside the mapping. *)
Definition no_dangling (dsl : SceneDSL) : Prop :=
  ∀ k s r, scenes dsl !! k = Some s → r ∈ scene_refs s →
    is_Some (scenes dsl !! r).

(** The six ids of the playthrough, which are also the [case] labels of
    [navigateToScene]. *)
Definition scene_ids : list string :=
  ["avatar_creation"; "quest_start"; "challenge_a"; "challenge_b";
   "good_ending"; "bad_ending"].

(** ** api.ts: isScene

    [isScene] takes [any]; its argument is an arbitrary JavaScript value.
    An object whose properties are all data properties is given by its own
    properties, an association list read from the front (for an array
    they include its index keys and [length]), and by its prototype,
    [null] or another object. Any other object, one with accessor
    properties, a [Proxy] or a host object, is given by what the
    operations performed on it yield: the answer of [k in obj] and the
    value of the [n]-th read of [obj.k] during the call, either of which
    may be an exception. An object is a function when it is callable. *)

#[local] Set Warnings "-register-all".

Inductive JSValue :=
| JUndefined
| JNull
| JBool (b : bool)
| JNumber (n : Z)
| JNaN
| JString (s : string)
| JBigInt (n : Z)
| JSymbol (description : string)
| JObject (callable : bool) (props : list (string * JSValue))
          (proto : JSValue)
| JExotic (callable : bool) (has : string → result JSError bool)
          (get : string → nat → result JSError JSValue).

Definition js_truthy (v : JSValue) : bool :=
  match v with
  | JUndefined | JNull | JNaN => false
  | JBool b => b
  | JNumber n | JBigInt n => negb (n =? 0)%Z
  | JString s => negb (String.eqb s "")
  | JSymbol _ | JObject _ _ _ | JExotic _ _ _ => true
  end.

Definition typeof (v : JSValue) : string :=
  match v with
  | JUndefined => "undefined"
  | JNull => "object"
  | JBool _ => "boolean"
  | JNumber _ | JNaN => "number"
  | JString _ => "string"
  | JBigInt _ => "bigint"
  | JSymbol _ => "symbol"
  | JObject callable _ _ | JExotic callable _ _ =>
      if callable then "function" else "object"
  end.

Fixpoint own_property (k : string) (props : list (string * JSValue))
  : option JSValue :=
  match props with
  | [] => None
  | (k', v) :: rest => if String.eqb k k' then Some v else own_property k rest
  end.

(** Whether an object has the property [k], its own or one inherited
    along the prototype chain; the chain ends at [null]. *)
Fixpoint has_property (k : string) (v : JSValue) : result JSError bool :=
  match v with
  | JObject _ props proto =>
      match own_property k props with
      | Some _ => Ok true
      | None => has_property k proto
      end
  | JExotic _ has _ => has k
  | _ => Ok false
  end.

(** The [n]-th read of the property [k] of an object: the first value
    found along the prototype chain, [undefined] when there is none. *)
Fixpoint get_property (n : nat) (k : string) (v : JSValue)
  : result JSError JSValue :=
  match v with
  | JObject _ props proto =>
      match own_property k props with
      | Some value => Ok value
      | None => get_property n k proto
      end
  | JExotic _ _ get => get k n
  | _ => Ok JUndefined
  end.

(** [k in v]: a [TypeError] when the right operand is not an object. *)
Definition js_in (k : string) (v : JSValue) : result JSError bool :=
  match v with
  | JObject _ _ _ | JExotic _ _ _ => has_property k v
  | _ => Throw (TypeError "Cannot use 'in' operator to search for a key in a primitive")
  end.

Section PropertyRead.
(** The prototype a property read on a primitive starts from
    ([String.prototype] for a string, and so on). *)
Variable wrapper_prototype : JSValue → JSValue.

(** The [n]-th evaluation of [v.k]: a [TypeError] on [undefined] and
    [null]. *)
Definition js_get (n : nat) (v : JSValue) (k : string)
  : result JSError JSValue :=
  match v with
  | JUndefined | JNull =>
      Throw (TypeError "Cannot read properties of undefined")
  | JObject _ _ _ | JExotic _ _ _ => get_property n k v
  | _ => get_property n k (wrapper_prototype v)
  end.

(** [v === 'lit'] *)
Definition strict_eq_string (v : JSValue) (lit : string) : bool :=
  match v with
  | JString s => String.eqb s lit
  | _ => false
  end.

(** [a && b]: [b] is evaluated only when [a] is truthy, and the value of
    the expression is the operand that decided it. *)
Definition js_and (a : result JSError JSValue)
    (b : unit → result JSError JSValue) : result JSError JSValue :=
  x ← a; if js_truthy x then b () else Ok x.

(** [a || b]: [b] is evaluated only when [a] is falsy. *)
Definition js_or (a : result JSError JSValue)
    (b : unit → result JSError JSValue) : result JSError JSValue :=
  x ← a; if js_truthy x then Ok x else b ().

(** [obj.scene_type === 'lit'], as the [n]-th read of the property. *)
Definition scene_type_is (obj : JSValue) (n : nat) (lit : string)
  : result JSError JSValue :=
  t ← js_get n obj "scene_type";
  Ok (JBool (strict_eq_string t lit)).

(** The parenthesised disjunction; each disjunct reads the property
    anew. *)
Definition scene_type_among (obj : JSValue) : result JSError JSValue :=
  js_or
    (js_or
       (js_or (scene_type_is obj 0 "avatar")
              (λ _, scene_type_is obj 1 "dialogue"))
       (λ _, scene_type_is obj 2 "obstacle_run"))
    (λ _, scene_type_is obj 3 "conclusion").

Definition isScene (obj : JSValue) : result JSError JSValue :=
  js_and
    (js_and
       (js_and (Ok obj)
               (λ _, Ok (JBool (String.eqb (typeof obj) "object"))))
       (λ _, b ← js_in "scene_type" obj; Ok (JBool b)))
    (λ _, scene_type_among obj).
End PropertyRead.

(** The four literals of the [scene_type] union. *)
Definition SceneType_tag (t : SceneType) : string :=
  match t with
  | avatar => "avatar"
  | dialogue => "dialogue"
  | obstacle_run => "obstacle_run"
  | conclusion => "conclusion"
  end.

(** The literals in the order [isScene] compares with them. *)
Definition scene_type_literals : list string :=
  ["avatar"; "dialogue"; "obstacle_run"; "conclusion"].

Definition js_option (o : option JSValue) (k : string)
  : list (string * JSValue) :=
  match o with
  | Some v => [(k, v)]
  | None => []
  end.

(** The own properties of an array with the given elements. *)
Definition array_props (items : list JSValue) : list (string * JSValue) :=
  imap (λ index item, (pretty index, item)) items
  ++ [("length", JNumber (Z.of_nat (length items)))].

Section Literals.
(** [Object.prototype] and [Array.prototype] of the realm the records are
    created in, whatever they hold. *)
Variable Object_prototype Array_prototype : JSValue.

Definition DialogueOption_to_js (o : DialogueOption) : JSValue :=
  JObject false
    [("text", JString (opt_text o));
     ("next_scene", JString (opt_next_scene o))]
    Object_prototype.

Definition NPCLegacy_to_js (n : NPCLegacy) : JSValue :=
  JObject false
    [("name", JString (npcl_name n));
     ("description", JString (npcl_description n));
     ("portrait_prompt", JString (npcl_portrait_prompt n))]
    Object_prototype.

(** The object literal each scene record is written as. *)
Definition Scene_to_js (s : Scene) : JSValue :=
  match s with
  | SAvatar a =>
      JObject false
        [("scene_id", JString (av_scene_id a));
         ("scene_type", JString "avatar");
         ("title", JString (av_title a));
         ("description", JString (av_description a));
         ("avatar_prompt", JString (avatar_prompt a));
         ("next_scene", JString (av_next_scene a))]
        Object_prototype
  | SDialogue d =>
      JObject false
        ([("scene_id", JString (dl_scene_id d));
          ("scene_type", JString "dialogue");
          ("title", JString (dl_title d));
          ("description", JString (dl_description d));
          ("background_prompt", JString (dl_background_prompt d))]
         ++ js_option (NPCLegacy_to_js <$> dl_npc d) "npc"
         ++ [("dialogue_text", JString (dialogue_text d));
             ("options",
              JObject false
                (array_props (DialogueOption_to_js <$> options d))
                Array_prototype)])
        Object_prototype
  | SObstacleRun o =>
      JObject false
        [("scene_id", JString (ob_scene_id o));
         ("scene_type", JString "obstacle_run");
         ("title", JString (ob_title o));
         ("description", JString (ob_description o));
         ("background_prompt", JString (ob_background_prompt o));
         ("obstacle_prompt", JString (obstacle_prompt o));
         ("difficulty", JNumber (difficulty o));
         ("success_scene", JString (success_scene o));
         ("failure_scene", JString (failure_scene o))]
        Object_prototype
  | SConclusion c =>
      JObject false
        ([("scene_id", JString (cn_scene_id c));
          ("scene_type", JString "conclusion");
          ("title", JString (cn_title c));
          ("description", JString (cn_description c));
          ("background_prompt", JString (cn_background_prompt c));
          ("conclusion_text", JString (conclusion_text c));
          ("is_good_ending", JBool (is_good_ending c))]
         ++ js_option (JString <$> cn_next_scene c) "next_scene")
        Object_prototype
  end.
End Literals.

(** How a property name resolves on a value: not at all, to a data
    property found on the object or up its prototype chain, or through an
    object whose answers are its own. *)
Inductive Resolution :=
| Absent
| Field (value : JSValue)
| Trapped.

Fixpoint resolve (k : string) (v : JSValue) : Resolution :=
  match v with
  | JObject _ props proto =>
      match own_property k props with
      | Some value => Field value
      | None => resolve k proto
      end
  | JExotic _ _ _ => Trapped
  | _ => Absent
  end.

(** ** assetLoader.ts *)

Inductive AssetType := IMAGE | AUDIO | SPRITESHEET.

Record ImageFrameConfig := { frameWidth : Z; frameHeight : Z }.

Record AssetInfo := {
  asset_key : string;
  asset_type : AssetType;
  asset_url : option string;
  asset_prompt : option string;
  asset_frameConfig : option ImageFrameConfig;
  asset_loaded : bool
}.

(** The two [Map]s of an [AssetLoader]. A [Map] is walked in insertion
    order, [map_to_list] in an order of its own; nothing below depends on
    the order. What the Phaser scene contributes is passed to the
    operations that ask it. *)
Record AssetLoader := {
  assets : gmap string AssetInfo;
  generatedAssets : gmap string string
}.

(** [new AssetLoader(scene)] *)
Definition new_AssetLoader : AssetLoader :=
  {| assets := ∅; generatedAssets := ∅ |}.

Definition queueAsset (key : string) (type : AssetType) (prompt : string)
    (frameConfig : option ImageFrameConfig) (this : AssetLoader) : AssetLoader :=
  {| assets :=
       <[key := {| asset_key := key; asset_type := type; asset_url := None;
                   asset_prompt := Some prompt;
                   asset_frameConfig := frameConfig;
                   asset_loaded := false |}]> (assets this);
     generatedAssets := generatedAssets this |}.

Definition queueAssetWithURL (key : string) (type : AssetType) (url : string)
    (frameConfig : option ImageFrameConfig) (this : AssetLoader) : AssetLoader :=
  {| assets :=
       <[key := {| asset_key := key; asset_type := type; asset_url := Some url;
                   asset_prompt := None;
                   asset_frameConfig := frameConfig;
                   asset_loaded := false |}]> (assets this);
     generatedAssets := generatedAssets this |}.

(** The calls a scene makes on its loader while preloading, in order. *)
Inductive LoaderCall :=
| CallQueueAsset (key : string) (type : AssetType) (prompt : string)
| CallQueueAssetWithURL (key : string) (type : AssetType) (url : string).

Definition run_call (this : AssetLoader) (c : LoaderCall) : AssetLoader :=
  match c with
  | CallQueueAsset key type prompt => queueAsset key type prompt None this
  | CallQueueAssetWithURL key type url => queueAssetWithURL key type url None this
  end.

Definition run_calls (calls : list LoaderCall) (this : AssetLoader) : AssetLoader :=
  foldl run_call this calls.

(** What the Phaser loader is asked to fetch. *)
Inductive PhaserLoad :=
| LoadImage (key url : string)
| LoadAudio (key url : string)
| LoadSpritesheet (key url : string) (frameConfig : ImageFrameConfig).

Section Loader.
(** The host's [encodeURIComponent]; it throws a [URIError] on a lone
    surrogate. *)
Variable encodeURIComponent : string → result JSError string.

(** api.ts: [generateImage] *)
Definition generateImage (prompt : string) : result JSError string :=
  encoded ← encodeURIComponent prompt;
  let placeholderUrl := "https://via.placeholder.com/400x400?text=" +:+ encoded in
  Ok placeholderUrl.

Definition fallbackUrl (key : string) : string :=
  "https://via.placeholder.com/400x400?text=Failed+to+generate+" +:+ key.

Definition set_generated (key url : string) (this : AssetLoader) : AssetLoader :=
  {| assets := assets this;
     generatedAssets := <[key := url]> (generatedAssets this) |}.

Definition generateAsset (key prompt : string) (this : AssetLoader)
  : result JSError AssetLoader :=
  try_catch
    (url ← generateImage prompt;
     Ok (set_generated key url this))
    (λ error, Ok (set_generated key (fallbackUrl key) this)).

(** [asset.prompt && !asset.loaded], yielding the prompt to generate from. *)
Definition needs_generation (asset : AssetInfo) : option string :=
  if truthy (asset_prompt asset) && negb (asset_loaded asset)
  then asset_prompt asset else None.

(** The [generateAsset] calls [loadAll] issues, one per queued entry. *)
Definition generation_requests (this : AssetLoader) : list (string * string) :=
  omap (λ '(key, asset), (λ p, (key, p)) <$> needs_generation asset)
       (map_to_list (assets this)).

(** First half of [loadAll]: every generation settles before loading
    starts; a rejection rejects [loadAll]. *)
Definition generate_all (this : AssetLoader) : result JSError AssetLoader :=
  foldl (λ acc '(key, p), l ← acc; generateAsset key p l)
        (Ok this) (generation_requests this).

(** Second half of [loadAll]: the files handed to the Phaser loader. *)
Definition load_request (this : AssetLoader) (key : string) (asset : AssetInfo)
  : option PhaserLoad :=
  if asset_loaded asset then None
  else
    let url := or_else (asset_url asset) (generatedAssets this !! key) in
    match url with
    | Some u =>
        if truthy url then
          match asset_type asset with
          | IMAGE => Some (LoadImage key u)
          | AUDIO => Some (LoadAudio key u)
          | SPRITESHEET => LoadSpritesheet key u <$> asset_frameConfig asset
          end
        else None
    | None => None
    end.

Definition load_requests (this : AssetLoader) : list PhaserLoad :=
  omap (λ '(key, asset), load_request this key asset)
       (map_to_list (assets this)).

Definition loadAll (this : AssetLoader)
  : result JSError (AssetLoader * list PhaserLoad) :=
  l ← generate_all this;
  Ok (l, load_requests l).

(** [onLoadComplete]: [textures] and [audio] are the keys the texture
    manager and the audio cache hold when the loader reports completion. *)
Definition onLoadComplete (textures audio : gset string) (this : AssetLoader)
  : AssetLoader :=
  {| assets :=
       map_imap (λ key asset,
         Some (if bool_decide (key ∈ textures ∨ key ∈ audio)
               then {| asset_key := asset_key asset;
                       asset_type := asset_type asset;
                       asset_url := asset_url asset;
                       asset_prompt := asset_prompt asset;
                       asset_frameConfig := asset_frameConfig asset;
                       asset_loaded := true |}
               else asset)) (assets this);
     generatedAssets := generatedAssets this |}.

Definition isLoaded (key : string) (this : AssetLoader) : bool :=
  match assets this !! key with
  | Some asset => asset_loaded asset
  | None => false
  end.

(** The counting loop of [getProgress]. *)
Definition loaded_count (this : AssetLoader) : nat :=
  map_fold (λ _ asset loaded, if asset_loaded asset then S loaded else loaded)
           0%nat (assets this).

(** [getProgress]; the quotient of the two counters is the exact
    rational. *)
Definition getProgress (this : AssetLoader) : Q :=
  let total := size (assets this) in
  let loaded := loaded_count this in
  if (0 <? total)%nat
  then Qmake (Z.of_nat loaded) (Pos.of_nat total)
  else 1%Q.
End Loader.

(** ** scenes/*.ts: fields, init and preload *)

(** The keys under which the five scene classes are registered. *)
Inductive PhaserScene :=
| KBootScene | KTitleScene | KDynamicScene | KObstacleRunScene | KConclusionScene.

(** Fields shared by [DynamicScene], [ObstacleRunScene], [ConclusionScene]
    and [BootScene]. *)
Record SceneFields := {
  gameData : option LegacyGameResponse;
  currentSceneId : string;
  assetLoader : option AssetLoader
}.

(** [init(data)]: a fresh loader on every scene start. *)
Definition scene_init (sceneId : string) (data : option LegacyGameResponse)
  : SceneFields :=
  {| gameData := data; currentSceneId := sceneId;
     assetLoader := Some new_AssetLoader |}.

(** [(this.gameData as any).game_data?.images] *)
Definition preserved_images (g : LegacyGameResponse) : option GameImages :=
  game_data g ≫= images.

(** [if (images.x) queueAssetWithURL(key, IMAGE, images.x)] *)
Definition queue_url (key : string) (url : option string) : list LoaderCall :=
  match url with
  | Some u => if truthy url then [CallQueueAssetWithURL key IMAGE u] else []
  | None => []
  end.

(** [!this.gameData || !this.currentSceneId || !this.assetLoader] *)
(** One [queue_url] per slot of an image record, in order. *)
Definition queue_urls (slots : list (string * option string))
  : list LoaderCall :=
  slots ≫= λ '(key, url), queue_url key url.

Definition preload_guard (this : SceneFields) : option LegacyGameResponse :=
  match gameData this, assetLoader this with
  | Some g, Some _ =>
      if String.eqb (currentSceneId this) "" then None else Some g
  | _, _ => None
  end.

Definition DynamicScene_preload_calls (this : SceneFields) : list LoaderCall :=
  match preload_guard this with
  | None => []
  | Some g =>
      match preserved_images g with
      | Some images =>
          queue_url "avatar" (img_avatar images)
          ++ queue_url "background" (img_background images)
          ++ queue_url "npc" (img_npc images)
      | None => []
      end
  end.

Definition ConclusionScene_preload_calls (this : SceneFields) : list LoaderCall :=
  match preload_guard this with
  | None => []
  | Some g =>
      match preserved_images g with
      | Some images =>
          queue_url "background" (img_background images)
          ++ queue_url "avatar" (img_avatar images)
      | None => []
      end
  end.

(** The record [ObstacleRunScene] reads for its scene id, when it is an
    obstacle run. *)
Definition obstacle_run_record (g : LegacyGameResponse) (sceneId : string)
  : option ObstacleRunScene :=
  match scenes (scene_dsl g) !! sceneId with
  | Some (SObstacleRun scene) => Some scene
  | _ => None
  end.

Definition ObstacleRunScene_preload_calls (this : SceneFields) : list LoaderCall :=
  match preload_guard this with
  | None => []
  | Some g =>
      match obstacle_run_record g (currentSceneId this) with
      | None => []
      | Some scene =>
          match preserved_images g with
          | Some images =>
              queue_url ("bg_" +:+ currentSceneId this) (img_background images)
              ++ queue_url ("obstacle_" +:+ currentSceneId this) (img_avatar images)
          | None =>
              [CallQueueAsset ("bg_" +:+ currentSceneId this) IMAGE
                              (ob_background_prompt scene);
               CallQueueAsset ("obstacle_" +:+ currentSceneId this) IMAGE
                              (obstacle_prompt scene)]
          end
      end
  end.

(** [BootScene.queueAssetsForScene]; [create] calls it only with game data
    present, and it reads [this.gameData.game_data] unguarded. *)
Definition BootScene_queueAssetsForScene_calls (this : SceneFields)
  : result JSError (list LoaderCall) :=
  match assetLoader this with
  | None => Ok []
  | Some _ =>
      match gameData this with
      | None => Throw (TypeError "Cannot read properties of null")
      | Some g =>
          Ok match preserved_images g with
             | Some images =>
                 queue_url "avatar" (img_avatar images)
                 ++ queue_url "background" (img_background images)
                 ++ queue_url "npc" (img_npc images)
             | None => []
             end
      end
  end.

(** The four places that queue assets for a scene about to be shown. *)
Inductive Preloader :=
| BootQueue | DynamicPreload | ObstacleRunPreload | ConclusionPreload.

Definition preload_calls (which : Preloader) (this : SceneFields)
  : list LoaderCall :=
  match which with
  | BootQueue =>
      match BootScene_queueAssetsForScene_calls this with
      | Ok calls => calls
      | Throw _ => []
      end
  | DynamicPreload => DynamicScene_preload_calls this
  | ObstacleRunPreload => ObstacleRunScene_preload_calls this
  | ConclusionPreload => ConclusionScene_preload_calls this
  end.

(** The scene after its preload: the calls applied to its loader. *)
Definition preload (which : Preloader) (this : SceneFields) : SceneFields :=
  {| gameData := gameData this;
     currentSceneId := currentSceneId this;
     assetLoader := run_calls (preload_calls which this) <$> assetLoader this |}.

(** [successSceneId] and [failureSceneId] as [ObstacleRunScene.preload]
    stores them; they keep their initial [''] when it returns early. *)
Definition ObstacleRunScene_targets (this : SceneFields) : string * string :=
  match preload_guard this with
  | None => ("", "")
  | Some g =>
      match obstacle_run_record g (currentSceneId this) with
      | Some scene => (success_scene scene, failure_scene scene)
      | None => ("", "")
      end
  end.

(** ** scenes/*.ts: navigation *)

Record SceneStart := {
  start_key : PhaserScene;
  start_sceneId : string;
  start_gameData : LegacyGameResponse
}.

(** The [switch] of [navigateToScene], identical in [DynamicScene] and
    [ObstacleRunScene]: the scene class started, and whether a [case]
    label matched rather than [default], which logs an unknown scene. *)
Definition navigate_switch (sceneId : string) : PhaserScene * bool :=
  if String.eqb sceneId "avatar_creation" then (KDynamicScene, true)
  else if String.eqb sceneId "quest_start" then (KDynamicScene, true)
  else if String.eqb sceneId "challenge_a" then (KObstacleRunScene, true)
  else if String.eqb sceneId "challenge_b" then (KObstacleRunScene, true)
  else if String.eqb sceneId "good_ending" then (KConclusionScene, true)
  else if String.eqb sceneId "bad_ending" then (KConclusionScene, true)
  else (KDynamicScene, false).

Definition navigate_target (sceneId : string) : PhaserScene :=
  (navigate_switch sceneId).1.

Definition navigateToScene (this : SceneFields) (sceneId : string)
  : option SceneStart :=
  match gameData this with
  | None => None
  | Some g =>
      Some {| start_key := navigate_target sceneId;
              start_sceneId := sceneId;
              start_gameData := g |}
  end.

(** The scene ids behind the buttons [DynamicScene.create] puts on
    screen: Continue on the avatar and the default screen, the two choices
    on the dialogue screen; none when it bails out to the title. *)
Definition DynamicScene_buttons (this : SceneFields) : list string :=
  match preload_guard this with
  | None => []
  | Some g =>
      if String.eqb (currentSceneId this) "avatar_creation" then ["quest_start"]
      else if String.eqb (currentSceneId this) "quest_start" then
        match game_data g with
        | Some _ => ["challenge_a"; "challenge_b"]
        | None => []
        end
      else ["quest_start"]
  end.

(** The scene ids behind the Success and Failure buttons of
    [ObstacleRunScene.create], as [preload] stored them; none when it bails
    out to the title. *)
Definition ObstacleRunScene_buttons (this : SceneFields) : list string :=
  match preload_guard this with
  | None => []
  | Some g =>
      match obstacle_run_record g (currentSceneId this) with
      | None => []
      | Some _ =>
          let '(successSceneId, failureSceneId) := ObstacleRunScene_targets this in
          [successSceneId; failureSceneId]
      end
  end.

(** The scene ids a player can move to from a running scene; the
    conclusion screen only offers the way back to the title. *)
Definition buttons (key : PhaserScene) (this : SceneFields) : list string :=
  match key with
  | KDynamicScene => DynamicScene_buttons this
  | KObstacleRunScene => ObstacleRunScene_buttons this
  | _ => []
  end.

(** [this.scene.start(key, { sceneId, gameData })]: the scene class that
    runs next and its fields after [init]. *)
Definition start_scene (st : SceneStart) : PhaserScene * SceneFields :=
  (start_key st, scene_init (start_sceneId st) (Some (start_gameData st))).

(** [TitleScene.startAdventure] with game data at hand. *)
Definition startAdventure (g : LegacyGameResponse) : PhaserScene * SceneFields :=
  start_scene {| start_key := KDynamicScene;
                 start_sceneId := initial_scene (scene_dsl g);
                 start_gameData := g |}.

(** One click on a button of the running scene. *)
Definition play_step (a b : PhaserScene * SceneFields) : Prop :=
  ∃ target st,
    target ∈ buttons a.1 a.2
    ∧ navigateToScene a.2 target = Some st
    ∧ b = start_scene st.

(** The Phaser scene that renders each kind of record. *)
Definition renderer (t : SceneType) : PhaserScene :=
  match t with
  | avatar | dialogue => KDynamicScene
  | obstacle_run => KObstacleRunScene
  | conclusion => KConclusionScene
  end.

(** ** ConclusionScene.ts: rendering *)

Inductive Drawn :=
| DrawImage (texture : string)
| DrawRectangle (color : Z)
| DrawText (content : string).

Definition createRestartButton : list Drawn :=
  [DrawRectangle 0x4CAF50; DrawText "Play Again"].

(** [textures] is the texture manager at the time of rendering. *)
Definition renderConclusionScene (textures : gset string) (g : LegacyGameResponse)
    (currentSceneId : string) : list Drawn :=
  let background :=
    if bool_decide ("background" ∈ textures)
    then [DrawImage "background"; DrawRectangle 0x000000]
    else [DrawRectangle 0x111111] in
  let preservedGameData := game_data g in
  let isGoodEnding := String.eqb currentSceneId "good_ending" in
  let title := if isGoodEnding then "Victory!" else "Defeat" in
  let avatarImage :=
    if isGoodEnding && bool_decide ("avatar" ∈ textures)
    then [DrawImage "avatar"] else [] in
  let conclusion :=
    match preservedGameData with
    | Some d =>
        let conclusionText :=
          if isGoodEnding
          then climax d +:+ LF +:+ LF +:+ ending_good d
                 +:+ LF +:+ LF +:+ epilogue d
          else climax d +:+ LF +:+ LF +:+ ending_bad d in
        [DrawText conclusionText]
    | None => []
    end in
  background ++ [DrawText title] ++ avatarImage ++ conclusion
    ++ createRestartButton.



(** ** The page: index.html, localStorage and the running game *)

(** A JSON value, as [JSON.parse] hands it back; a number is given by
    the rational its literal denotes. *)
Inductive JSON :=
| JSON_null
| JSON_bool (b : bool)
| JSON_number (n : Q)
| JSON_string (s : string)
| JSON_array (items : list JSON)
| JSON_object (members : list (string * JSON)).

(** What a [gameData] field holds at run time. It is declared
    [LegacyGameResponse | null] ([any] in [BootScene]), and [JSON.parse]
    returns [any]: besides a game response or [null], an [init] can leave
    there whatever other value the stored text denotes. *)
Inductive FieldValue :=
| Typed (held : option LegacyGameResponse)
| Foreign (value : JSON).

(** A [localStorage] value, by what [JSON.parse] makes of its text: the
    text [JSON.stringify] produced for a game response, which reads back as
    the same plain data; any other JSON text, such as [null], [0] or [{}],
    with the value it denotes; or a text [JSON.parse] rejects, of which the
    empty string is one. *)
Inductive StoredItem :=
| JSONText (g : LegacyGameResponse)
| OtherJSON (value : JSON)
| NotJSON (empty : bool).

Definition JSON_stringify (g : LegacyGameResponse) : StoredItem := JSONText g.

Definition JSON_parse (item : StoredItem) : result JSError FieldValue :=
  match item with
  | JSONText g => Ok (Typed (Some g))
  | OtherJSON JSON_null => Ok (Typed None)
  | OtherJSON value => Ok (Foreign value)
  | NotJSON _ => Throw (SyntaxError "Unexpected token")
  end.

(** [if (storedData)]: a string is falsy exactly when it is empty, and no
    JSON text is empty. *)
Definition stored_truthy (item : StoredItem) : bool :=
  match item with
  | JSONText _ | OtherJSON _ => true
  | NotJSON empty => negb empty
  end.

(** The four elements of index.html the scripts touch. *)
Record Document := {
  prompt_container_display : string;
  loading_screen_display : string;
  error_message_textContent : string;
  error_message_display : string;
  progress_bar_width : Z
}.

Record App := {
  localStorage : gmap string StoredItem;
  document : Document;
  (** the scene the scene manager is running *)
  running : PhaserScene;
  (** the [gameData] field of the [TitleScene] instance *)
  TitleScene_gameData : FieldValue;
  (** the game data captured by the pending [setTimeout] callback that
      starts [BootScene] *)
  scheduled_boot : option LegacyGameResponse
}.

Definition with_document (f : Document → Document) (app : App) : App :=
  {| localStorage := localStorage app; document := f (document app);
     running := running app; TitleScene_gameData := TitleScene_gameData app;
     scheduled_boot := scheduled_boot app |}.

Definition with_localStorage
    (f : gmap string StoredItem → gmap string StoredItem) (app : App) : App :=
  {| localStorage := f (localStorage app); document := document app;
     running := running app; TitleScene_gameData := TitleScene_gameData app;
     scheduled_boot := scheduled_boot app |}.

Definition with_running (key : PhaserScene) (app : App) : App :=
  {| localStorage := localStorage app; document := document app;
     running := key; TitleScene_gameData := TitleScene_gameData app;
     scheduled_boot := scheduled_boot app |}.

Definition with_TitleScene_gameData (g : FieldValue) (app : App)
  : App :=
  {| localStorage := localStorage app; document := document app;
     running := running app; TitleScene_gameData := g;
     scheduled_boot := scheduled_boot app |}.

Definition with_scheduled_boot (g : option LegacyGameResponse) (app : App) : App :=
  {| localStorage := localStorage app; document := document app;
     running := running app; TitleScene_gameData := TitleScene_gameData app;
     scheduled_boot := g |}.

(** *** Title.ts *)

(** [TitleScene.init(data)]; the argument is [data.gameData], at its
    declared type. What [JSON.parse] returns is assigned as it is. *)
Definition TitleScene_init (data_gameData : option LegacyGameResponse) (app : App)
  : App :=
  match data_gameData with
  | Some g => with_TitleScene_gameData (Typed (Some g)) app
  | None =>
      match localStorage app !! "gameData" with
      | Some storedData =>
          if stored_truthy storedData then
            match JSON_parse storedData with
            | Ok parsed => with_TitleScene_gameData parsed app
            | Throw e => app
            end
          else app
      | None => app
      end
  end.

Definition showPromptScreen (app : App) : App :=
  let app := with_document (λ d,
    {| prompt_container_display := "flex";
       loading_screen_display := loading_screen_display d;
       error_message_textContent := "";
       error_message_display := "none";
       progress_bar_width := progress_bar_width d |}) app in
  let app := with_localStorage (delete "gameData") app in
  with_TitleScene_gameData (Typed None) app.

Definition restartGame (app : App) : App := showPromptScreen app.

(** *** ConclusionScene.ts: the Play Again button

    Its handler is [this.scene.start('TitleScene')], with no data
    argument; [init_data] is the [gameData] property of the object the
    scene manager then hands to [TitleScene.init]. *)
Definition ConclusionScene_restart (init_data : option LegacyGameResponse)
    (app : App) : App :=
  TitleScene_init init_data (with_running KTitleScene app).

(** The playthrough context is blank: nothing held by the title scene and
    nothing stored. *)
Definition cleared (app : App) : Prop :=
  TitleScene_gameData app = Typed None
  ∧ localStorage app !! "gameData" = None.

(** *** api.ts and index.ts: generation *)

(** [response.data], typed [GameResponse]; in what actually arrives
    [game_data] may be missing. *)
Record AxiosResponse := {
  data_game_data : option GameData;
  data_prompt : string
}.

Definition GENERATION_FAILED : string :=
  "Failed to generate game. Please try again.".

Definition updateProgress (progress : Z) (app : App) : App :=
  with_document (λ d,
    {| prompt_container_display := prompt_container_display d;
       loading_screen_display := loading_screen_display d;
       error_message_textContent := error_message_textContent d;
       error_message_display := error_message_display d;
       progress_bar_width := progress |}) app.

Section Network.
(** The settled outcome of [axios.post('/api/generateGame', {prompt})]. *)
Variable axios_post : string → result JSError AxiosResponse.

Definition generateGame (prompt : string)
  : result JSError LegacyGameResponse :=
  try_catch
    (response ← axios_post prompt;
     gameData ←
       match data_game_data response with
       | Some d => Ok d
       | None => Throw (TypeError "Cannot read properties of undefined")
       end;
     let convertedData :=
       convertToSceneStructure gameData (data_prompt response) in
     Ok convertedData)
    (λ error, Throw (Error GENERATION_FAILED)).

(** The body of the [try] runs to the [setTimeout] registration unless
    [generateGame] rejects; the [catch] then resets the page. *)
Definition startGameGeneration (prompt : string) (app : App) : App :=
  let app := updateProgress 10 app in
  match generateGame prompt with
  | Ok gameData =>
      let app := updateProgress 50 app in
      let app :=
        with_localStorage (<["gameData" := JSON_stringify gameData]>) app in
      let app := updateProgress 90 app in
      with_scheduled_boot (Some gameData) app
  | Throw error =>
      with_document (λ d,
        {| prompt_container_display := "flex";
           loading_screen_display := "none";
           error_message_textContent :=
             "Failed to generate game. Please try again.";
           error_message_display := "block";
           progress_bar_width := progress_bar_width d |}) app
  end.
End Network.

(** ** Predicates used in the statements *)

(** A screen of the playthrough of [g]: one of the six ids, shown by the
    scene class [navigateToScene] starts for it, holding [g]. *)
Definition on_graph (g : LegacyGameResponse)
    (screen : PhaserScene * SceneFields) : Prop :=
  ∃ sceneId,
    sceneId ∈ scene_ids
    ∧ screen = (navigate_target sceneId, scene_init sceneId (Some g)).

(** [key] has a non-empty generated URL. *)
Definition nonempty_at (this : AssetLoader) (key : string) : Prop :=
  ∃ url, generatedAssets this !! key = Some url ∧ url ≠ "".

(** A call that takes its URL from one of the three fields of [images]. *)
Definition from_image_set (images : GameImages) (c : LoaderCall) : Prop :=
  ∃ key url,
    c = CallQueueAssetWithURL key IMAGE url
    ∧ Some url ∈ [img_avatar images; img_background images; img_npc images].

(** Every queued entry was queued by URL. *)
Definition url_only (this : AssetLoader) : Prop :=
  map_Forall (λ _ asset, asset_prompt asset = None ∧ is_Some (asset_url asset))
             (assets this).

(** ** A sample playthrough *)

Definition knight_prompt : string := "A brave knight explores a haunted forest".

Definition knight_images : GameImages := {|
  img_avatar := Some "assets/avatar_4f2a.png";
  img_background := Some "assets/background_9c1d.png";
  img_npc := Some "assets/npc_77e0.png"
|}.

Definition knight_story (images : option GameImages) : GameData := {|
  setting := "a haunted forest";
  protagonist_role := "brave knight";
  objective := "Lift the curse";
  twist := "The ghost is the king";
  npc := {| npc_name := "Old Hermit"; npc_trait := "wary" |};
  hook := "Lanterns flicker between the trees";
  quest_offer := "Will you enter the forest?";
  choice_a := "Take the north path";
  choice_b := "Follow the river";
  challenge_intro := "Roots rise from the ground";
  climax := "The ghost stands before you";
  ending_good := "The curse is lifted";
  ending_bad := "The forest keeps you";
  epilogue := "Dawn breaks";
  images := images
|}.

Definition knight_game : LegacyGameResponse :=
  convertToSceneStructure (knight_story (Some knight_images)) knight_prompt.

(** The page while the good ending of [knight_game] is on screen. *)
Definition knight_ending : App := {|
  localStorage := {["gameData" := JSON_stringify knight_game]};
  document := {|
    prompt_container_display := "none";
    loading_screen_display := "none";
    error_message_textContent := "";
    error_message_display := "none";
    progress_bar_width := 90
  |};
  running := KConclusionScene;
  TitleScene_gameData := Typed (Some knight_game);
  scheduled_boot := None
|}.

(** A backend that cannot be reached. *)
Definition unreachable_backend (prompt : string) : result JSError AxiosResponse :=
  Throw (AxiosError "Network Error").

(** A page waiting for the backend after the prompt form was submitted. *)
Definition waiting_page : App := {|
  localStorage := ∅;
  document := {|
    prompt_container_display := "none";
    loading_screen_display := "flex";
    error_message_textContent := "";
    error_message_display := "none";
    progress_bar_width := 0
  |};
  running := KTitleScene;
  TitleScene_gameData := Typed None;
  scheduled_boot := None
|}.

(** [encodeURIComponent] on prompts made of unreserved characters only:
    they encode as themselves. *)
Definition encode_unreserved (s : string) : result JSError string := Ok s.

(** A loader with one entry queued by prompt and one by URL, the second
    already loaded. *)
Definition half_loaded : AssetLoader :=
  onLoadComplete {["bg_challenge_a"]} ∅
    (run_calls [CallQueueAsset "obstacle_challenge_a" IMAGE "Obstacles";
                CallQueueAssetWithURL "bg_challenge_a" IMAGE
                  "assets/background_9c1d.png"]
               new_AssetLoader).

(** ** scenes/*.ts: what [create] puts on screen *)

(** What a scene adds to the display list. A button is its rectangle and
    label together with the scene id its [pointerdown] handler passes to
    [navigateToScene]. *)
Inductive Widget :=
| WImage (texture : string)
| WRectangle (color : Z)
| WText (content : string)
| WButton (label : string) (target : string).

(** What [create] ends in: a screen, or a jump to another scene. *)
Inductive Screen :=
| Painted (widgets : list Widget)
| Redirected (key : PhaserScene).

Definition createChoiceButton (text nextScene : string) : list Widget :=
  [WButton text nextScene].

Definition createContinueButton (nextScene : string) : list Widget :=
  [WButton "Continue" nextScene].

(** The buttons of a screen, in the order they were added. *)
Definition widget_buttons (ws : list Widget) : list (string * string) :=
  omap (λ w, match w with
             | WButton label target => Some (label, target)
             | _ => None
             end) ws.

Definition widget_targets (ws : list Widget) : list string :=
  (widget_buttons ws).*2.

(** *** DynamicScene.ts *)

Definition renderAvatarScene (textures : gset string) (g : LegacyGameResponse)
  : list Widget :=
  let background :=
    if bool_decide ("background" ∈ textures)
    then [WImage "background"]
    else [WRectangle 0x111111] in
  let preservedGameData := game_data g in
  let description :=
    match preservedGameData with
    | Some d =>
        [WText ("You are a " +:+ protagonist_role d +:+ " in " +:+ setting d)]
    | None => []
    end in
  let avatarImage :=
    if bool_decide ("avatar" ∈ textures) then [WImage "avatar"] else [] in
  background ++ [WText "Create Your Hero"] ++ description ++ avatarImage
    ++ createContinueButton "quest_start".

Definition renderDialogueScene (textures : gset string) (g : LegacyGameResponse)
  : list Widget :=
  let background :=
    if bool_decide ("background" ∈ textures)
    then [WImage "background"; WRectangle 0x000000]
    else [WRectangle 0x111111] in
  let preservedGameData := game_data g in
  let npcPortrait :=
    match preservedGameData with
    | Some d =>
        if bool_decide ("npc" ∈ textures)
        then [WImage "npc"; WText (npc_name (npc d))]
        else []
    | None => []
    end in
  let dialogue :=
    match preservedGameData with
    | Some d =>
        [WText (quest_offer d)]
        ++ createChoiceButton (choice_a d) "challenge_a"
        ++ createChoiceButton (choice_b d) "challenge_b"
    | None => []
    end in
  background ++ [WText "The Quest Begins"] ++ npcPortrait ++ dialogue.

Definition renderDefaultScene (textures : gset string) : list Widget :=
  let background :=
    if bool_decide ("background" ∈ textures)
    then [WImage "background"]
    else [WRectangle 0x111111] in
  background ++ [WText "Adventure Continues"]
    ++ createContinueButton "quest_start".

(** [DynamicScene.create], [textures] being the texture manager once
    [loadAll] has settled. *)
Definition DynamicScene_create (textures : gset string) (this : SceneFields)
  : Screen :=
  match preload_guard this with
  | None => Redirected KTitleScene
  | Some g =>
      Painted
        (if String.eqb (currentSceneId this) "avatar_creation"
         then renderAvatarScene textures g
         else if String.eqb (currentSceneId this) "quest_start"
         then renderDialogueScene textures g
         else renderDefaultScene textures)
  end.

(** [handleDialogueOption] *)
Definition handleDialogueOption (this : SceneFields) (opt : DialogueOption)
  : option SceneStart :=
  navigateToScene this (opt_next_scene opt).

(** *** ObstacleRunScene.ts *)

(** [ObstacleRunScene.create]; the two buttons use the ids [preload]
    stored. *)
Definition ObstacleRunScene_create (textures : gset string) (this : SceneFields)
  : Screen :=
  match preload_guard this with
  | None => Redirected KTitleScene
  | Some g =>
      match obstacle_run_record g (currentSceneId this) with
      | None => Redirected KTitleScene
      | Some scene =>
          let bg := "bg_" +:+ currentSceneId this in
          let obstacle := "obstacle_" +:+ currentSceneId this in
          let '(successSceneId, failureSceneId) :=
            ObstacleRunScene_targets this in
          Painted
            ((if bool_decide (bg ∈ textures)
              then [WImage bg] else [WRectangle 0x111111])
             ++ [WText (ob_title scene); WText (ob_description scene);
                 WRectangle 0x333333]
             ++ (if bool_decide (obstacle ∈ textures)
                 then [WImage obstacle] else [])
             ++ [WButton "Success" successSceneId;
                 WButton "Failure" failureSceneId])
      end
  end.

(** *** Title.ts: what [create] writes *)

(** The double quote, which a string literal cannot hold. *)
Definition DQ : string := String "034"%char "".

(** [a || b] with [a] an optional string and [b] a literal. *)
Definition or_default (a : option string) (b : string) : string :=
  match a with
  | Some s => if truthy a then s else b
  | None => b
  end.

(** The texts of the title screen: title, description and, when the game
    has a prompt, the line quoting it. *)
Definition TitleScene_texts (held : option LegacyGameResponse) : list string :=
  let title := or_default (game_title ∘ scene_dsl <$> held) "AI LoreCrafter" in
  let description :=
    or_default (game_description ∘ scene_dsl <$> held)
               "An AI-generated RPG adventure" in
  let promptText :=
    match held with
    | Some g =>
        if truthy (Some (prompt g))
        then ["Based on: " +:+ DQ +:+ prompt g +:+ DQ]
        else []
    | None => []
    end in
  [title; description] ++ promptText.

(** *** Boot.ts *)

(** [BootScene.init(data)]: [data_gameData] is [data.gameData] as the
    callers pass it, a game response or nothing; [held] is the [gameData]
    field before the call, [storage] is [localStorage]; the result is the
    field and the storage after it. *)
Definition BootScene_init (data_gameData : option LegacyGameResponse)
    (held : FieldValue) (storage : gmap string StoredItem)
  : FieldValue * gmap string StoredItem :=
  match data_gameData with
  | Some g => (Typed (Some g), <["gameData" := JSON_stringify g]> storage)
  | None =>
      match storage !! "gameData" with
      | Some storedData =>
          if stored_truthy storedData then
            match JSON_parse storedData with
            | Ok parsed => (parsed, storage)
            | Throw e => (held, storage)
            end
          else (held, storage)
      | None => (held, storage)
      end
  end.

(** [BootScene.updateLoadingProgress]: the percentage written to the
    width of the progress bar, [Math.min(100, Math.max(0, progress))]. *)
Definition updateLoadingProgress (progress : Q) : Q :=
  Qmin 100 (Qmax 0 progress).

(** The handler of the loader's [progress] event. *)
Definition on_load_progress (value : Q) : Q :=
  updateLoadingProgress (value * 100)%Q.

(** What [BootScene.create] ends in. *)
Inductive Booted :=
| TitleWith (gameData : option LegacyGameResponse) (requests : list PhaserLoad)
| BootError (message : string).

(** ** dialogUI.ts *)

Record DialogueUIConfig := {
  cfg_x : Z;
  cfg_y : Z;
  cfg_width : Z;
  cfg_height : Z;
  cfg_padding : Z
}.

(** The container [createOption] returns: where it stands and the option
    its click handler has captured. *)
Record OptionContainer := {
  oc_x : Z;
  oc_y : Z;
  oc_option : DialogueOption
}.

Section DialogueUI.
(** What the selection callback yields. *)
Variable Reply : Type.
(** The height Phaser gives the dialogue text once its content is set. *)
Variable text_height : string → Z.

Record DialogueUI := {
  ui_config : DialogueUIConfig;
  ui_visible : bool;
  ui_dialogueText : string;
  ui_options : list OptionContainer;
  ui_currentDialogue : option DialogueScene;
  ui_onOptionSelected : option (DialogueOption → Reply);
  (** the option containers [destroy()] was called on, oldest first *)
  ui_destroyed : list OptionContainer;
  ui_container_destroyed : bool
}.

(** [new DialogueUI(scene, config)] *)
Definition new_DialogueUI (config : DialogueUIConfig) : DialogueUI :=
  {| ui_config := config; ui_visible := false; ui_dialogueText := "";
     ui_options := []; ui_currentDialogue := None;
     ui_onOptionSelected := None; ui_destroyed := [];
     ui_container_destroyed := false |}.

Definition clearOptions (this : DialogueUI) : DialogueUI :=
  {| ui_config := ui_config this; ui_visible := ui_visible this;
     ui_dialogueText := ui_dialogueText this;
     ui_options := [];
     ui_currentDialogue := ui_currentDialogue this;
     ui_onOptionSelected := ui_onOptionSelected this;
     ui_destroyed := ui_destroyed this ++ ui_options this;
     ui_container_destroyed := ui_container_destroyed this |}.

Definition createOption (opt : DialogueOption) (x y : Z) : OptionContainer :=
  {| oc_x := x; oc_y := y; oc_option := opt |}.

Definition showDialogue (dialogue : DialogueScene)
    (callback : DialogueOption → Reply) (this : DialogueUI) : DialogueUI :=
  let text := dialogue_text dialogue in
  let cleared := clearOptions this in
  let padding := cfg_padding (ui_config this) in
  let optionsStartY := (padding + text_height text + padding)%Z in
  {| ui_config := ui_config this;
     ui_visible := true;
     ui_dialogueText := text;
     ui_options :=
       imap (λ index opt,
               createOption opt (padding * 2)%Z
                            (optionsStartY + Z.of_nat index * 40)%Z)
            (options dialogue);
     ui_currentDialogue := Some dialogue;
     ui_onOptionSelected := Some callback;
     ui_destroyed := ui_destroyed cleared;
     ui_container_destroyed := ui_container_destroyed this |}.

Definition hideDialogue (this : DialogueUI) : DialogueUI :=
  let cleared := clearOptions this in
  {| ui_config := ui_config this;
     ui_visible := false;
     ui_dialogueText := ui_dialogueText this;
     ui_options := ui_options cleared;
     ui_currentDialogue := None;
     ui_onOptionSelected := None;
     ui_destroyed := ui_destroyed cleared;
     ui_container_destroyed := ui_container_destroyed this |}.

Definition getCurrentDialogue (this : DialogueUI) : option DialogueScene :=
  ui_currentDialogue this.

(** [destroy()] *)
Definition destroy_ui (this : DialogueUI) : DialogueUI :=
  let cleared := clearOptions this in
  {| ui_config := ui_config this; ui_visible := ui_visible this;
     ui_dialogueText := ui_dialogueText this;
     ui_options := ui_options cleared;
     ui_currentDialogue := ui_currentDialogue this;
     ui_onOptionSelected := ui_onOptionSelected this;
     ui_destroyed := ui_destroyed cleared;
     ui_container_destroyed := true |}.

(** A [pointerdown] on the hit area of the [index]-th option on screen:
    the callback's reply, if a callback is set. *)
Definition click_option (index : nat) (this : DialogueUI) : option Reply :=
  container ← ui_options this !! index;
  callback ← ui_onOptionSelected this;
  Some (callback (oc_option container)).

(** The public operations, for talking about every use of a [DialogueUI]. *)
Inductive UIOperation :=
| OpShow (dialogue : DialogueScene) (callback : DialogueOption → Reply)
| OpHide
| OpDestroy.

Definition run_operation (this : DialogueUI) (op : UIOperation) : DialogueUI :=
  match op with
  | OpShow d callback => showDialogue d callback this
  | OpHide => hideDialogue this
  | OpDestroy => destroy_ui this
  end.

(** The option containers created by a sequence of operations. *)
Definition created_by (ops : list UIOperation) : nat :=
  sum_list ((λ op, match op with
                   | OpShow d _ => length (options d)
                   | _ => 0
                   end) <$> ops).
End DialogueUI.

Arguments ui_config {Reply}.
Arguments ui_visible {Reply}.
Arguments ui_dialogueText {Reply}.
Arguments ui_options {Reply}.
Arguments ui_currentDialogue {Reply}.
Arguments ui_onOptionSelected {Reply}.
Arguments ui_destroyed {Reply}.
Arguments ui_container_destroyed {Reply}.
Arguments new_DialogueUI {Reply}.
Arguments clearOptions {Reply}.
Arguments showDialogue {Reply}.
Arguments hideDialogue {Reply}.
Arguments getCurrentDialogue {Reply}.
Arguments destroy_ui {Reply}.
Arguments click_option {Reply}.
Arguments run_operation {Reply}.
Arguments created_by {Reply}.
Arguments OpShow {Reply}.
Arguments OpHide {Reply}.
Arguments OpDestroy {Reply}.

(** ** Reading loader requests *)

Definition request_key (r : PhaserLoad) : string :=
  match r with
  | LoadImage key _ | LoadAudio key _ | LoadSpritesheet key _ _ => key
  end.

Definition request_url (r : PhaserLoad) : string :=
  match r with
  | LoadImage _ url | LoadAudio _ url | LoadSpritesheet _ url _ => url
  end.

(** The asset type a request is made for, and the frame configuration it
    carries. *)
Definition request_type (r : PhaserLoad) : AssetType * option ImageFrameConfig :=
  match r with
  | LoadImage _ _ => (IMAGE, None)
  | LoadAudio _ _ => (AUDIO, None)
  | LoadSpritesheet _ _ frameConfig => (SPRITESHEET, Some frameConfig)
  end.

(** [BootScene.create]: queue the images of the initial scene, load them
    and hand over to the title scene; without game data or loader, go to
    the title scene at once. *)
Definition BootScene_create
    (encodeURIComponent : string → result JSError string) (this : SceneFields)
  : Booted :=
  match gameData this, assetLoader this with
  | Some g, Some loader =>
      match
        calls ← BootScene_queueAssetsForScene_calls this;
        loadAll encodeURIComponent (run_calls calls loader)
      with
      | Ok (_, requests) => TitleWith (Some g) requests
      | Throw error => BootError "Failed to load game assets. Please try again."
      end
  | _, _ => TitleWith None []
  end.

(** ** More samples *)

(** An [encodeURIComponent] that rejects every prompt. *)
Definition encode_failing (s : string) : result JSError string :=
  Throw (URIError "URI malformed").

(** The obstacle entry of [half_loaded], as queued. *)
Definition obstacle_entry : AssetInfo :=
  {| asset_key := "obstacle_challenge_a"; asset_type := IMAGE;
     asset_url := None; asset_prompt := Some "Obstacles";
     asset_frameConfig := None; asset_loaded := false |}.

(** A backend that answers every prompt with the knight story and echoes
    the prompt. *)
Definition echoing_backend (prompt : string) : result JSError AxiosResponse :=
  Ok {| data_game_data := Some (knight_story (Some knight_images));
        data_prompt := prompt |}.

(** A backend whose answer lacks [game_data]. *)
Definition hollow_backend (prompt : string) : result JSError AxiosResponse :=
  Ok {| data_game_data := None; data_prompt := prompt |}.

(** * Properties *)

(** ** The scene graph built by [convertToSceneStructure] *)

Section SceneGraph.
Variable gameData : GameData.
Variable prompt : string.

Local Notation "'game'" := (convertToSceneStructure gameData prompt).
Local Notation "'dsl'" := (scene_dsl (convertToSceneStructure gameData prompt)).

(** The mapping read back entry by entry. *)
Lemma convert_lookup_inv k s :
  scenes dsl !! k = Some s →
  (k = "avatar_creation" ∧ s = SAvatar (avatarScene gameData))
  ∨ (k = "quest_start" ∧ s = SDialogue (questScene gameData))
  ∨ (k = "challenge_a" ∧ s = SObstacleRun (challengeScene gameData))
  ∨ (k = "challenge_b" ∧ s = SObstacleRun (challengeSceneB gameData))
  ∨ (k = "good_ending" ∧ s = SConclusion (goodEnding gameData))
  ∨ (k = "bad_ending" ∧ s = SConclusion (badEnding gameData)).
Proof.
  cbn. intros H.
  repeat (apply lookup_insert_Some in H as [[<- <-]|[_ H]];
          [by eauto 10|]).
  by rewrite lookup_empty in H.
Qed.

Lemma convert_dom : dom (scenes dsl) = list_to_set scene_ids.
Proof.
  cbn. rewrite !dom_insert_L, dom_empty_L. set_solver.
Qed.

Lemma convert_is_Some k : is_Some (scenes dsl !! k) ↔ k ∈ scene_ids.
Proof.
  rewrite <- elem_of_dom, convert_dom. apply elem_of_list_to_set.
Qed.

Lemma scene_ids_cases k :
  k ∈ scene_ids →
  k = "avatar_creation" ∨ k = "quest_start" ∨ k = "challenge_a"
  ∨ k = "challenge_b" ∨ k = "good_ending" ∨ k = "bad_ending".
Proof. unfold scene_ids. set_solver. Qed.

(** Every edge of the graph ends at one of the six ids. *)
Lemma dsl_step_closed a b : dsl_step dsl a b → b ∈ scene_ids.
Proof.
  intros (s & Hs & Hb).
  apply convert_lookup_inv in Hs
    as [[_ ->]|[[_ ->]|[[_ ->]|[[_ ->]|[[_ ->]|[_ ->]]]]]];
    cbn in Hb; unfold scene_ids; set_solver.
Qed.

Lemma initial_in_scene_ids : initial_scene dsl ∈ scene_ids.
Proof. cbn. unfold scene_ids. set_solver. Qed.

Lemma dsl_reachable_closed x :
  rtc (dsl_step dsl) (initial_scene dsl) x → x ∈ scene_ids.
Proof.
  revert x. apply (rtc_ind_r (λ x, x ∈ scene_ids)).
  - apply initial_in_scene_ids.
  - intros y z _ Hstep _. by eapply dsl_step_closed.
Qed.

Lemma startAdventure_on_graph : on_graph game (startAdventure game).
Proof. exists "avatar_creation". split; [|reflexivity]. set_solver. Qed.

Lemma play_step_on_graph a b :
  on_graph game a → play_step a b → on_graph game b.
Proof.
  intros (sceneId & Hid & ->) (target & st & Htarget & Hnav & ->).
  cbn in Htarget, Hnav. injection Hnav as <-.
  exists target. split; [|reflexivity].
  apply scene_ids_cases in Hid as [->|[->|[->|[->|[->| ->]]]]];
    cbn in Htarget; unfold scene_ids; set_solver.
Qed.

Lemma play_reachable_on_graph screen :
  rtc play_step (startAdventure game) screen → on_graph game screen.
Proof.
  revert screen. apply (rtc_ind_r (on_graph game)).
  - apply startAdventure_on_graph.
  - intros y z _ Hstep IH. by eapply play_step_on_graph.
Qed.
End SceneGraph.

(** C1: in the mapping built by [convertToSceneStructure] no transition
    reference dangles: the avatar scene leads to [quest_start], the two
    dialogue options to [challenge_a] and [challenge_b], both challenges
    to [good_ending] on success and [bad_ending] on failure; every id
    reached from the initial scene along these references is a key of the
    mapping, and every screen reached from [startAdventure] by clicking
    buttons shows a record of the mapping: its buttons are that record's
    references, and [navigateToScene] started, through a [case] label, the
    scene class that renders it. *)
Theorem convertToSceneStructure_no_dangling (data : GameData)
    (prompt : string) :
  let game := convertToSceneStructure data prompt in
  let dsl := scene_dsl game in
  no_dangling dsl
  ∧ (∃ a, scenes dsl !! "avatar_creation" = Some (SAvatar a)
          ∧ scene_refs (SAvatar a) = ["quest_start"])
  ∧ (∃ d, scenes dsl !! "quest_start" = Some (SDialogue d)
          ∧ scene_refs (SDialogue d) = ["challenge_a"; "challenge_b"])
  ∧ (∃ o, scenes dsl !! "challenge_a" = Some (SObstacleRun o)
          ∧ success_scene o = "good_ending" ∧ failure_scene o = "bad_ending")
  ∧ (∃ o, scenes dsl !! "challenge_b" = Some (SObstacleRun o)
          ∧ success_scene o = "good_ending" ∧ failure_scene o = "bad_ending")
  ∧ (∀ x, rtc (dsl_step dsl) (initial_scene dsl) x →
          is_Some (scenes dsl !! x))
  ∧ (∀ screen, rtc play_step (startAdventure game) screen →
          ∃ s, scenes dsl !! currentSceneId screen.2 = Some s
               ∧ gameData screen.2 = Some game
               ∧ buttons screen.1 screen.2 = scene_refs s
               ∧ navigate_switch (currentSceneId screen.2)
                 = (screen.1, true)
               ∧ screen.1 = renderer (scene_type s)).
Proof.
  intros game dsl. split_and!.
  - intros k s r Hs Hr. apply convert_is_Some.
    apply (dsl_step_closed data prompt k). by exists s.
  - by eexists.
  - by eexists.
  - by eexists.
  - by eexists.
  - intros x Hx. apply convert_is_Some.
    by apply (dsl_reachable_closed data prompt).
  - intros screen Hreach.
    apply (play_reachable_on_graph data prompt) in Hreach
      as (sceneId & Hid & ->).
    apply scene_ids_cases in Hid as [->|[->|[->|[->|[->| ->]]]]];
      eexists; split_and!; reflexivity.
Qed.

(** C2: the mapping holds exactly the six scene ids, and
    [initial_scene] is ['avatar_creation'], one of them. *)
Theorem convertToSceneStructure_six_scenes (gameData : GameData)
    (prompt : string) :
  let dsl := scene_dsl (convertToSceneStructure gameData prompt) in
  dom (scenes dsl)
    = ({["avatar_creation"; "quest_start"; "challenge_a"; "challenge_b";
         "good_ending"; "bad_ending"]} : gset string)
  ∧ size (scenes dsl) = 6
  ∧ initial_scene dsl = "avatar_creation"
  ∧ initial_scene dsl ∈ dom (scenes dsl).
Proof.
  intros dsl.
  assert (Hdom : dom (scenes dsl)
    = ({["avatar_creation"; "quest_start"; "challenge_a"; "challenge_b";
         "good_ending"; "bad_ending"]} : gset string)).
  { subst dsl. rewrite convert_dom. unfold scene_ids. set_solver. }
  split_and!.
  - done.
  - rewrite <- size_dom, Hdom. reflexivity.
  - reflexivity.
  - rewrite Hdom. set_solver.
Qed.

Lemma convertToSceneStructure_no_dangling_witness :
  is_Some (scenes (scene_dsl knight_game) !! "good_ending").
Proof.
  destruct (convertToSceneStructure_no_dangling
              (knight_story (Some knight_images)) knight_prompt)
    as (_ & _ & _ & _ & _ & Hreach & _).
  apply Hreach.
  apply (rtc_l _ _ "quest_start"); [eexists; split; [reflexivity|set_solver]|].
  apply (rtc_l _ _ "challenge_a"); [eexists; split; [reflexivity|set_solver]|].
  apply rtc_once. eexists; split; [reflexivity|set_solver].
Defined.

(** ** [isScene] *)

Lemma strict_eq_string_true v lit :
  strict_eq_string v lit = true ↔ v = JString lit.
Proof.
  destruct v; cbn; try (split; [discriminate|by intros [=]]).
  rewrite String.eqb_eq. split; [by intros ->|by intros [= ->]].
Qed.

Lemma strict_eq_string_false v lit :
  strict_eq_string v lit = false ↔ v ≠ JString lit.
Proof.
  rewrite <-strict_eq_string_true. by destruct (strict_eq_string v lit).
Qed.

Lemma strict_eq_string_tag v :
  existsb (strict_eq_string v) scene_type_literals = true
  ↔ ∃ t, v = JString (SceneType_tag t).
Proof.
  split.
  - intros H. destruct v; try discriminate. cbn in H.
    repeat (apply orb_prop in H as [H|H]);
      try discriminate; apply String.eqb_eq in H as ->.
    + by exists avatar.
    + by exists dialogue.
    + by exists obstacle_run.
    + by exists conclusion.
  - intros [[] ->]; reflexivity.
Qed.

(** What the name resolves to decides [in] and every read. *)
Lemma resolve_sound k v :
  match resolve k v with
  | Absent =>
      has_property k v = Ok false
      ∧ ∀ n, get_property n k v = Ok JUndefined
  | Field value =>
      has_property k v = Ok true ∧ ∀ n, get_property n k v = Ok value
  | Trapped => True
  end.
Proof.
  induction v as [| | | | | | | |callable props proto IH|]; cbn; try done.
  by destruct (own_property k props).
Qed.

(** A truthy value whose [typeof] is ['object'] is an object that is not
    callable. *)
Lemma truthy_object_inv obj :
  js_truthy obj = true → typeof obj = "object" →
  (∃ props proto, obj = JObject false props proto)
  ∨ (∃ has get, obj = JExotic false has get).
Proof.
  destruct obj as [| | | | | | | |[] props proto|[] has get];
    cbn; try discriminate; eauto.
Qed.

Section IsScene.
Variable wrapper_prototype : JSValue → JSValue.

(** On anything but a truthy value of type ['object'] the answer is a
    falsy value: the argument itself when it is falsy, [false]
    otherwise. *)
Lemma isScene_not_object obj :
  js_truthy obj = false ∨ typeof obj ≠ "object" →
  ∃ v, isScene wrapper_prototype obj = Ok v ∧ js_truthy v = false.
Proof.
  intros Hno. unfold isScene, js_and. cbn.
  destruct (js_truthy obj) eqn:Htruthy; cbn.
  - destruct Hno as [[=]|Htype].
    apply String.eqb_neq in Htype. rewrite Htype. cbn.
    by exists (JBool false).
  - rewrite !Htruthy. cbn. rewrite Htruthy. by exists obj.
Qed.

(** On a truthy value of type ['object'] the answer is that of the [in]
    test followed by the comparisons. *)
Lemma isScene_object obj :
  js_truthy obj = true → typeof obj = "object" →
  isScene wrapper_prototype obj
  = match js_in "scene_type" obj with
    | Ok true => scene_type_among wrapper_prototype obj
    | Ok false => Ok (JBool false)
    | Throw e => Throw e
    end.
Proof.
  intros Htruthy Htype. unfold isScene, js_and. cbn.
  rewrite Htruthy. cbn. rewrite Htype. cbn.
  destruct (js_in "scene_type" obj) as [[]|e]; reflexivity.
Qed.

Local Ltac earlier_reads :=
  let j := fresh "j" in
  let Hj := fresh "Hj" in
  let Hl := fresh "Hl" in
  intros j ? Hj Hl;
  repeat (destruct j as [|j];
          [ cbn in Hl; simplify_eq; eexists; split;
            [eassumption|by apply strict_eq_string_false]
          |]);
  lia.

(** The comparisons answer [true] exactly when some read yields its
    literal and every earlier read yielded a value that is not its
    literal. *)
Lemma scene_type_among_true obj :
  scene_type_among wrapper_prototype obj = Ok (JBool true)
  ↔ ∃ i lit,
      scene_type_literals !! i = Some lit
      ∧ js_get wrapper_prototype i obj "scene_type" = Ok (JString lit)
      ∧ ∀ j lit', (j < i)%nat → scene_type_literals !! j = Some lit' →
          ∃ v, js_get wrapper_prototype j obj "scene_type" = Ok v
               ∧ v ≠ JString lit'.
Proof.
  unfold scene_type_among, scene_type_is, js_or. split.
  - destruct (js_get wrapper_prototype 0 obj "scene_type") as [v0|e0] eqn:E0;
      cbn; [|discriminate].
    destruct (strict_eq_string v0 "avatar") eqn:S0; cbn.
    { intros _. apply strict_eq_string_true in S0 as ->.
      exists 0%nat, "avatar". split_and!; [done|done|earlier_reads]. }
    destruct (js_get wrapper_prototype 1 obj "scene_type") as [v1|e1] eqn:E1;
      cbn; [|discriminate].
    destruct (strict_eq_string v1 "dialogue") eqn:S1; cbn.
    { intros _. apply strict_eq_string_true in S1 as ->.
      exists 1%nat, "dialogue". split_and!; [done|done|earlier_reads]. }
    destruct (js_get wrapper_prototype 2 obj "scene_type") as [v2|e2] eqn:E2;
      cbn; [|discriminate].
    destruct (strict_eq_string v2 "obstacle_run") eqn:S2; cbn.
    { intros _. apply strict_eq_string_true in S2 as ->.
      exists 2%nat, "obstacle_run". split_and!; [done|done|earlier_reads]. }
    destruct (js_get wrapper_prototype 3 obj "scene_type") as [v3|e3] eqn:E3;
      cbn; [|discriminate].
    destruct (strict_eq_string v3 "conclusion") eqn:S3; cbn; [|discriminate].
    intros _. apply strict_eq_string_true in S3 as ->.
    exists 3%nat, "conclusion". split_and!; [done|done|earlier_reads].
  - intros (i & lit & Hlit & Hread & Hearlier).
    assert (Hskip : ∀ j lit', (j < i)%nat →
              scene_type_literals !! j = Some lit' →
              ∃ v, js_get wrapper_prototype j obj "scene_type" = Ok v
                   ∧ strict_eq_string v lit' = false).
    { intros j lit' Hj Hlit'.
      destruct (Hearlier j lit' Hj Hlit') as (v & Hv & Hne).
      exists v. split; [done|]. by apply strict_eq_string_false. }
    destruct i as [|[|[|[|i]]]]; cbn in Hlit; simplify_eq.
    + rewrite Hread. reflexivity.
    + destruct (Hskip 0%nat "avatar") as (v0 & Hr0 & Hs0); [lia|done|].
      rewrite Hr0; cbn; rewrite Hs0; cbn.
      rewrite Hread. reflexivity.
    + destruct (Hskip 0%nat "avatar") as (v0 & Hr0 & Hs0); [lia|done|].
      destruct (Hskip 1%nat "dialogue") as (v1 & Hr1 & Hs1); [lia|done|].
      rewrite Hr0; cbn; rewrite Hs0; cbn.
      rewrite Hr1; cbn; rewrite Hs1; cbn.
      rewrite Hread. reflexivity.
    + destruct (Hskip 0%nat "avatar") as (v0 & Hr0 & Hs0); [lia|done|].
      destruct (Hskip 1%nat "dialogue") as (v1 & Hr1 & Hs1); [lia|done|].
      destruct (Hskip 2%nat "obstacle_run") as (v2 & Hr2 & Hs2); [lia|done|].
      rewrite Hr0; cbn; rewrite Hs0; cbn.
      rewrite Hr1; cbn; rewrite Hs1; cbn.
      rewrite Hr2; cbn; rewrite Hs2; cbn.
      rewrite Hread. reflexivity.
Qed.

(** When every read yields the same value, the comparisons answer whether
    it is one of the literals. *)
Lemma scene_type_among_field obj value :
  (∀ n, js_get wrapper_prototype n obj "scene_type" = Ok value) →
  scene_type_among wrapper_prototype obj
  = Ok (JBool (existsb (strict_eq_string value) scene_type_literals)).
Proof.
  intros Hread. unfold scene_type_among, scene_type_is, js_or.
  rewrite !Hread. cbn.
  destruct (strict_eq_string value "avatar"); cbn; [done|].
  destruct (strict_eq_string value "dialogue"); cbn; [done|].
  destruct (strict_eq_string value "obstacle_run"); cbn; [done|].
  by destruct (strict_eq_string value "conclusion").
Qed.

(** [isScene] on a value whose [scene_type] resolves without passing
    through an exotic object. *)
Lemma isScene_plain obj :
  js_truthy obj = true → typeof obj = "object" →
  resolve "scene_type" obj ≠ Trapped →
  isScene wrapper_prototype obj
  = Ok (JBool match resolve "scene_type" obj with
              | Field value =>
                  existsb (strict_eq_string value) scene_type_literals
              | _ => false
              end).
Proof.
  intros Htruthy Htype Hplain. rewrite isScene_object by done.
  pose proof (resolve_sound "scene_type" obj) as Hres.
  destruct (truthy_object_inv obj Htruthy Htype)
    as [(props & proto & ->)|(has & get & ->)]; [|done].
  unfold js_in.
  destruct (resolve "scene_type" (JObject false props proto))
    as [|value|]; [| |done].
  - destruct Hres as [-> _]. reflexivity.
  - destruct Hres as [-> Hread]. by apply scene_type_among_field.
Qed.

Lemma isScene_Scene_to_js Object_prototype Array_prototype s :
  isScene wrapper_prototype (Scene_to_js Object_prototype Array_prototype s) = Ok (JBool true).
Proof. destruct s; reflexivity. Qed.
End IsScene.

(** C9: [isScene] answers [true] exactly on the truthy values of type
    ['object'] that contain a [scene_type] field, their own or one
    inherited along the prototype chain, whose value is one of the four
    literals; on every other value whose properties are data properties it
    answers a falsy value and does not throw. For an object whose answers
    are its own (accessor properties, a [Proxy]) it answers [true] exactly
    when the [in] test answers [true] and some read of [scene_type] yields
    the literal it is compared with, every earlier read having yielded a
    value that is not its literal. It answers [true] on every scene record
    the client writes, so on each of the six records of the mapping built
    by [convertToSceneStructure]. *)
Theorem isScene_characterisation (wrapper_prototype : JSValue → JSValue) :
  (∀ obj, resolve "scene_type" obj ≠ Trapped →
     (isScene wrapper_prototype obj = Ok (JBool true)
      ↔ js_truthy obj = true ∧ typeof obj = "object"
        ∧ ∃ t, resolve "scene_type" obj = Field (JString (SceneType_tag t))))
  ∧ (∀ obj, resolve "scene_type" obj ≠ Trapped →
       ∃ v, isScene wrapper_prototype obj = Ok v
            ∧ (v = JBool true ∨ js_truthy v = false))
  ∧ (∀ obj,
       isScene wrapper_prototype obj = Ok (JBool true)
       ↔ js_truthy obj = true ∧ typeof obj = "object"
         ∧ js_in "scene_type" obj = Ok true
         ∧ ∃ i lit,
             scene_type_literals !! i = Some lit
             ∧ js_get wrapper_prototype i obj "scene_type" = Ok (JString lit)
             ∧ ∀ j lit', (j < i)%nat →
                 scene_type_literals !! j = Some lit' →
                 ∃ v, js_get wrapper_prototype j obj "scene_type" = Ok v
                      ∧ v ≠ JString lit')
  ∧ (∀ Object_prototype Array_prototype s,
       isScene wrapper_prototype
         (Scene_to_js Object_prototype Array_prototype s)
       = Ok (JBool true))
  ∧ (∀ Object_prototype Array_prototype gameData prompt k,
       k ∈ scene_ids →
       ∃ s,
         scenes (scene_dsl (convertToSceneStructure gameData prompt)) !! k
         = Some s
         ∧ resolve "scene_type"
             (Scene_to_js Object_prototype Array_prototype s)
           = Field (JString (SceneType_tag (scene_type s)))
         ∧ isScene wrapper_prototype
             (Scene_to_js Object_prototype Array_prototype s)
           = Ok (JBool true)).
Proof.
  assert (Hcases : ∀ obj,
            (js_truthy obj = true ∧ typeof obj = "object")
            ∨ (js_truthy obj = false ∨ typeof obj ≠ "object")).
  { intros obj. destruct (js_truthy obj); [|by right; left].
    destruct (decide (typeof obj = "object")); [by left|by right; right]. }
  split_and!.
  - intros obj Hplain. destruct (Hcases obj) as [[Htruthy Htype]|Hno].
    + rewrite isScene_plain by done. split.
      * intros [= H]. split_and!; [done|done|].
        destruct (resolve "scene_type" obj) as [|value|]; [done| |done].
        apply strict_eq_string_tag in H as [t ->]. by exists t.
      * intros (_ & _ & t & ->). f_equal. f_equal.
        apply strict_eq_string_tag. by exists t.
    + split.
      * intros H.
        destruct (isScene_not_object wrapper_prototype obj Hno)
          as (v & Hv & Hfalsy).
        rewrite Hv in H. injection H as ->. discriminate.
      * intros (Htruthy & Htype & _). destruct Hno as [Hno|Hno].
        -- by rewrite Htruthy in Hno.
        -- done.
  - intros obj Hplain. destruct (Hcases obj) as [[Htruthy Htype]|Hno].
    + rewrite isScene_plain by done. eexists. split; [done|].
      destruct (resolve "scene_type" obj) as [|value|]; [by right| |done].
      destruct (existsb _ _); [by left|by right].
    + destruct (isScene_not_object wrapper_prototype obj Hno)
        as (v & Hv & Hfalsy).
      exists v. split; [done|by right].
  - intros obj. destruct (Hcases obj) as [[Htruthy Htype]|Hno].
    + rewrite isScene_object by done. split.
      * destruct (js_in "scene_type" obj) as [[]|e]; cbn; try discriminate.
        intros H%scene_type_among_true. done.
      * intros (_ & _ & -> & H). cbn. by apply scene_type_among_true.
    + split.
      * intros H.
        destruct (isScene_not_object wrapper_prototype obj Hno)
          as (v & Hv & Hfalsy).
        rewrite Hv in H. injection H as ->. discriminate.
      * intros (Htruthy & Htype & _). destruct Hno as [Hno|Hno].
        -- by rewrite Htruthy in Hno.
        -- done.
  - intros Object_prototype Array_prototype s.
    apply isScene_Scene_to_js.
  - intros Object_prototype Array_prototype gameData prompt k Hk.
    apply (convert_is_Some gameData prompt) in Hk as [s Hs]. exists s.
    split_and!; [done| |apply isScene_Scene_to_js].
    apply convert_lookup_inv in Hs
      as [[_ ->]|[[_ ->]|[[_ ->]|[[_ ->]|[[_ ->]|[_ ->]]]]]]; reflexivity.
Qed.

(** The theorem at work on a record, on an object that inherits the field
    and on an array that carries it. *)
Lemma isScene_characterisation_witness :
  isScene (λ _, JNull)
    (Scene_to_js JNull JNull (SDialogue (questScene (knight_story None))))
  = Ok (JBool true)
  ∧ isScene (λ _, JNull)
      (JObject false [] (JObject false [("scene_type", JString "avatar")] JNull))
    = Ok (JBool true)
  ∧ isScene (λ _, JNull)
      (JObject false
         (array_props [JNumber 7] ++ [("scene_type", JString "conclusion")])
         JNull)
    = Ok (JBool true).
Proof.
  pose proof (isScene_characterisation (λ _, JNull))
    as (Hplain & _ & _ & Hrecords & _).
  split_and!.
  - apply Hrecords.
  - apply Hplain; [discriminate|].
    split_and!; [reflexivity|reflexivity|by exists avatar].
  - apply Hplain; [discriminate|].
    split_and!; [reflexivity|reflexivity|by exists conclusion].
Defined.

(** ** The asset loader *)

Section LoaderProperties.
Variable encodeURIComponent : string → result JSError string.

Lemma generateImage_nonempty prompt url :
  generateImage encodeURIComponent prompt = Ok url → url ≠ "".
Proof.
  unfold generateImage.
  destruct (encodeURIComponent prompt) as [encoded|e]; cbn; [|discriminate].
  intros [= <-]. discriminate.
Qed.

Lemma fallbackUrl_nonempty key : fallbackUrl key ≠ "".
Proof. discriminate. Qed.

(** What one [generateAsset] leaves behind. *)
Lemma generateAsset_inv key prompt this :
  ∃ url,
    generateAsset encodeURIComponent key prompt this = Ok (set_generated key url this)
    ∧ url ≠ ""
    ∧ match generateImage encodeURIComponent prompt with
      | Ok generated => url = generated
      | Throw _ => url = fallbackUrl key
      end.
Proof.
  unfold generateAsset, try_catch.
  destruct (generateImage encodeURIComponent prompt) as [generated|e] eqn:E; cbn.
  - exists generated. split_and!; [done| |done].
    by eapply generateImage_nonempty.
  - exists (fallbackUrl key). split_and!; [done| |done].
    apply fallbackUrl_nonempty.
Qed.

Lemma set_generated_nonempty key url this k :
  url ≠ "" → nonempty_at this k ∨ k = key →
  nonempty_at (set_generated key url this) k.
Proof.
  intros Hurl Hk. unfold nonempty_at; cbn.
  destruct (decide (key = k)) as [->|Hne].
  - exists url. by rewrite lookup_insert_eq.
  - rewrite lookup_insert_ne by done. destruct Hk as [Hk| ->]; done.
Qed.

(** The generation loop over any list of requests. *)
Lemma generate_requests_inv (requests : list (string * string)) this :
  ∃ this',
    foldl (λ acc '(key, p), l ← acc; generateAsset encodeURIComponent key p l) (Ok this) requests
      = Ok this'
    ∧ assets this' = assets this
    ∧ (∀ k, nonempty_at this k → nonempty_at this' k)
    ∧ (∀ k p, (k, p) ∈ requests → nonempty_at this' k).
Proof.
  revert this. induction requests as [|[key p] requests IH]; intros this.
  - exists this. split_and!; [done|done|done|].
    intros k p Hin. by apply elem_of_nil in Hin.
  - cbn. destruct (generateAsset_inv key p this) as (url & -> & Hurl & _).
    destruct (IH (set_generated key url this)) as (this' & -> & Ha & Hkeep & Hnew).
    exists this'. split_and!; [done|done| |].
    + intros k Hk. apply Hkeep, set_generated_nonempty; auto.
    + intros k p' [[= -> ->]|Hin]%elem_of_cons.
      * apply Hkeep, set_generated_nonempty; auto.
      * by eapply Hnew.
Qed.

Lemma generation_requests_elem this key asset p :
  assets this !! key = Some asset →
  needs_generation asset = Some p →
  (key, p) ∈ generation_requests this.
Proof.
  intros Hk Hp. unfold generation_requests.
  apply list_elem_of_omap. exists (key, asset). split.
  - by apply elem_of_map_to_list.
  - cbn. by rewrite Hp.
Qed.

(** C8: [generateAsset] always completes normally and leaves its key
    mapped to a non-empty URL, the generated one when [generateImage]
    succeeds and the placeholder fallback when it throws; hence after the
    generation phase of [loadAll] every queued entry that went through
    [generateAsset] has a URL to load. *)
Theorem generateAsset_maps_key :
  (∀ key prompt this,
     ∃ this' url,
       generateAsset encodeURIComponent key prompt this = Ok this'
       ∧ generatedAssets this' !! key = Some url
       ∧ url ≠ ""
       ∧ match generateImage encodeURIComponent prompt with
         | Ok generated => url = generated
         | Throw _ => url = fallbackUrl key
         end)
  ∧ (∀ this,
       ∃ this',
         generate_all encodeURIComponent this = Ok this'
         ∧ ∀ key asset,
             assets this !! key = Some asset →
             truthy (asset_prompt asset) = true →
             asset_loaded asset = false →
             assets this' !! key = Some asset
             ∧ truthy (or_else (asset_url asset)
                               (generatedAssets this' !! key)) = true).
Proof.
  split.
  - intros key prompt this.
    destruct (generateAsset_inv key prompt this) as (url & -> & Hurl & Hsrc).
    exists (set_generated key url this), url.
    split_and!; [done| |done|done]. cbn. by rewrite lookup_insert_eq.
  - intros this. unfold generate_all.
    destruct (generate_requests_inv (generation_requests this) this)
      as (this' & -> & Ha & _ & Hnew).
    exists this'. split; [done|].
    intros key asset Hk Hprompt Hloaded. rewrite Ha. split; [done|].
    destruct (asset_prompt asset) as [p|] eqn:Ep; [|discriminate].
    assert (Hneed : needs_generation asset = Some p).
    { unfold needs_generation. by rewrite Ep, Hprompt, Hloaded. }
    destruct (Hnew key p) as (url & -> & Hurl).
    { by eapply generation_requests_elem. }
    unfold or_else. destruct (truthy (asset_url asset)) eqn:Et; [done|].
    cbn. apply negb_true_iff, String.eqb_neq. done.
Qed.
End LoaderProperties.

Lemma generateAsset_maps_key_witness :
  ∃ this',
    generate_all encode_unreserved
      (queueAsset "obstacle_challenge_a" IMAGE "Obstacles" None new_AssetLoader)
    = Ok this'
    ∧ truthy (generatedAssets this' !! "obstacle_challenge_a") = true.
Proof.
  destruct (proj2 (generateAsset_maps_key encode_unreserved)
              (queueAsset "obstacle_challenge_a" IMAGE "Obstacles" None
                          new_AssetLoader))
    as (this' & Hall & Hurl).
  exists this'. split; [exact Hall|].
  apply (Hurl "obstacle_challenge_a"
           {| asset_key := "obstacle_challenge_a"; asset_type := IMAGE;
              asset_url := None; asset_prompt := Some "Obstacles";
              asset_frameConfig := None; asset_loaded := false |});
    reflexivity.
Defined.

(** *** Progress *)

Lemma loaded_count_filter (this : AssetLoader) :
  loaded_count this
  = size (filter (λ entry : string * AssetInfo, asset_loaded entry.2 = true)
                 (assets this)).
Proof.
  unfold loaded_count.
  apply (map_fold_weak_ind (λ (r : nat) (m : gmap string AssetInfo),
    r = size (filter (λ entry : string * AssetInfo,
                        asset_loaded entry.2 = true) m))).
  - by rewrite map_filter_empty, map_size_empty.
  - intros i x m r Hi ->. destruct (asset_loaded x) eqn:E.
    + rewrite map_filter_insert_True by done.
      rewrite map_size_insert_None; [done|].
      apply map_lookup_filter_None_2. by left.
    + rewrite map_filter_insert_not'; [done| |].
      * cbn. by rewrite E.
      * intros y Hy. by rewrite Hi in Hy.
Qed.

Lemma loaded_count_le_size (this : AssetLoader) :
  loaded_count this ≤ size (assets this).
Proof.
  unfold loaded_count.
  apply (map_fold_weak_ind (λ (r : nat) (m : gmap string AssetInfo),
    r ≤ size m)).
  - by rewrite map_size_empty.
  - intros i x m r Hi Hr. rewrite map_size_insert_None by done.
    destruct (asset_loaded x); lia.
Qed.

(** C10: [getProgress] lies between 0 and 1; it is the number of entries
    marked loaded divided by the number of queued entries, and 1 when
    nothing is queued. *)
Theorem getProgress_range (this : AssetLoader) :
  let total := size (assets this) in
  let marked :=
    size (filter (λ entry : string * AssetInfo, asset_loaded entry.2 = true)
                 (assets this)) in
  (0 <= getProgress this <= 1)%Q
  ∧ (total = 0 → getProgress this = 1%Q)
  ∧ (0 < total →
     (getProgress this
      == inject_Z (Z.of_nat marked) / inject_Z (Z.of_nat total))%Q).
Proof.
  intros total marked.
  pose proof (loaded_count_le_size this) as Hle.
  pose proof (loaded_count_filter this) as Hcount.
  fold marked in Hcount. fold total in Hle.
  unfold getProgress. fold total. rewrite Hcount in *.
  destruct (0 <? total)%nat eqn:E.
  - apply Nat.ltb_lt in E.
    assert (Hpos : Z.pos (Pos.of_nat total) = Z.of_nat total) by lia.
    split_and!.
    + unfold Qle; cbn. lia.
    + unfold Qle; cbn. lia.
    + lia.
    + intros _. rewrite Qmake_Qdiv. by rewrite Hpos.
  - apply Nat.ltb_ge in E. split_and!.
    + discriminate.
    + discriminate.
    + done.
    + lia.
Qed.

Lemma getProgress_range_witness :
  (getProgress half_loaded == inject_Z 1 / inject_Z 2)%Q.
Proof.
  apply (proj2 (proj2 (getProgress_range half_loaded))).
  vm_compute. lia.
Defined.

(** A file is requested exactly for a queued entry that yields one. *)
Lemma load_requests_elem this r :
  r ∈ load_requests this
  ↔ ∃ key asset, assets this !! key = Some asset
                 ∧ load_request this key asset = Some r.
Proof.
  unfold load_requests. rewrite list_elem_of_omap. split.
  - intros ([key asset] & Hin & Hr). exists key, asset.
    by apply elem_of_map_to_list in Hin.
  - intros (key & asset & Ha & Hr). exists (key, asset).
    by apply elem_of_map_to_list in Ha.
Qed.

(** ** Preloading from the image set *)

Lemma queue_url_elem key o c :
  c ∈ queue_url key o →
  ∃ url, o = Some url ∧ url ≠ "" ∧ c = CallQueueAssetWithURL key IMAGE url.
Proof.
  unfold queue_url. destruct o as [u|]; [|by intros ?%elem_of_nil].
  destruct (truthy (Some u)) eqn:E; [|by intros ?%elem_of_nil].
  intros ->%list_elem_of_singleton. exists u. split_and!; [done| |done].
  cbn in E. by apply negb_true_iff, String.eqb_neq in E.
Qed.

Lemma queue_url_from_image_set images key o c :
  o ∈ [img_avatar images; img_background images; img_npc images] →
  c ∈ queue_url key o → from_image_set images c.
Proof.
  intros Ho (url & -> & _ & ->)%queue_url_elem. by exists key, url.
Qed.

Lemma run_calls_url_only images calls this :
  Forall (from_image_set images) calls → url_only this →
  url_only (run_calls calls this)
  ∧ generatedAssets (run_calls calls this) = generatedAssets this.
Proof.
  unfold run_calls. revert this.
  induction calls as [|c calls IH]; intros this Hcalls Hthis; [done|].
  apply Forall_cons in Hcalls as [(key & url & -> & _) Hcalls]. cbn.
  destruct (IH (queueAssetWithURL key IMAGE url None this) Hcalls)
    as [Hurl Hgen]; [|done].
  apply map_Forall_insert_2; [|done]. cbn. eauto.
Qed.

Lemma url_only_no_generation this :
  url_only this → generation_requests this = [].
Proof.
  unfold url_only, generation_requests. rewrite map_Forall_to_list.
  induction 1 as [|[key asset] entries [Hprompt _] _ IH]; [done|].
  cbn in *. unfold needs_generation. by rewrite Hprompt.
Qed.

Lemma preload_calls_from_image_set which this g images :
  gameData this = Some g → preserved_images g = Some images →
  Forall (from_image_set images) (preload_calls which this).
Proof.
  intros Hg Himages. apply Forall_forall. intros c.
  destruct which; cbn;
    unfold BootScene_queueAssetsForScene_calls, DynamicScene_preload_calls,
      ObstacleRunScene_preload_calls, ConclusionScene_preload_calls,
      preload_guard;
    rewrite Hg; destruct (assetLoader this); try by intros ?%elem_of_nil.
  - rewrite Himages.
    intros [H|[H|H]%elem_of_app]%elem_of_app;
      (eapply queue_url_from_image_set; [|done]); set_solver.
  - destruct (String.eqb (currentSceneId this) ""); [by intros ?%elem_of_nil|].
    rewrite Himages.
    intros [H|[H|H]%elem_of_app]%elem_of_app;
      (eapply queue_url_from_image_set; [|done]); set_solver.
  - destruct (String.eqb (currentSceneId this) ""); [by intros ?%elem_of_nil|].
    destruct (obstacle_run_record g (currentSceneId this));
      [|by intros ?%elem_of_nil].
    rewrite Himages.
    intros [H|H]%elem_of_app;
      (eapply queue_url_from_image_set; [|done]); set_solver.
  - destruct (String.eqb (currentSceneId this) ""); [by intros ?%elem_of_nil|].
    rewrite Himages.
    intros [H|H]%elem_of_app;
      (eapply queue_url_from_image_set; [|done]); set_solver.
Qed.

(** The entry [queueAssetWithURL] leaves under a key. *)
Lemma queue_urls_cons key url slots :
  queue_urls ((key, url) :: slots) = queue_url key url ++ queue_urls slots.
Proof. reflexivity. Qed.

Lemma queue_urls_elem slots c :
  c ∈ queue_urls slots
  ↔ ∃ key url, c = CallQueueAssetWithURL key IMAGE url
               ∧ (key, Some url) ∈ slots ∧ url ≠ "".
Proof.
  unfold queue_urls. rewrite list_elem_of_bind. split.
  - intros ([key o] & Hc & Hslot).
    apply queue_url_elem in Hc as (url & -> & Hurl & ->).
    by exists key, url.
  - intros (key & url & -> & Hslot & Hurl).
    exists (key, Some url). split; [|done].
    unfold queue_url. cbn. apply String.eqb_neq in Hurl as ->. cbn.
    by apply list_elem_of_singleton.
Qed.

Lemma run_calls_app calls1 calls2 this :
  run_calls (calls1 ++ calls2) this = run_calls calls2 (run_calls calls1 this).
Proof. apply foldl_app. Qed.

Lemma run_queue_url_generated key url this :
  generatedAssets (run_calls (queue_url key url) this) = generatedAssets this.
Proof.
  unfold queue_url. destruct url as [u|]; [|done].
  by destruct (truthy (Some u)).
Qed.

Lemma run_queue_url_other key url this k :
  k ≠ key →
  assets (run_calls (queue_url key url) this) !! k = assets this !! k.
Proof.
  intros Hk. unfold queue_url. destruct url as [u|]; [|done].
  destruct (truthy (Some u)); [|done]. cbn. by rewrite lookup_insert_ne.
Qed.

Lemma run_queue_url_same key url this :
  assets (run_calls (queue_url key url) this) !! key
  = match url with
    | Some u =>
        if truthy url
        then Some {| asset_key := key; asset_type := IMAGE;
                     asset_url := Some u; asset_prompt := None;
                     asset_frameConfig := None; asset_loaded := false |}
        else assets this !! key
    | None => assets this !! key
    end.
Proof.
  unfold queue_url. destruct url as [u|]; [|done].
  destruct (truthy (Some u)); [|done]. cbn. by rewrite lookup_insert_eq.
Qed.

Lemma run_queue_urls_generated slots this :
  generatedAssets (run_calls (queue_urls slots) this) = generatedAssets this.
Proof.
  revert this. induction slots as [|[key url] slots IH]; intros this; [done|].
  rewrite queue_urls_cons, run_calls_app, IH.
  apply run_queue_url_generated.
Qed.

Lemma run_queue_urls_other slots this k :
  k ∉ slots.*1 →
  assets (run_calls (queue_urls slots) this) !! k = assets this !! k.
Proof.
  revert this. induction slots as [|[key url] slots IH]; intros this Hk;
    [done|].
  rewrite queue_urls_cons, run_calls_app. cbn in Hk.
  apply not_elem_of_cons in Hk as [Hne Hk].
  rewrite IH by done. by apply run_queue_url_other.
Qed.

(** Queued from slots with distinct keys onto a new loader, a key holds an
    entry exactly when its slot holds a non-empty URL, and the entry is
    that URL's. *)
Lemma run_queue_urls_lookup_from slots this key asset :
  NoDup slots.*1 →
  assets this !! key = None →
  assets (run_calls (queue_urls slots) this) !! key = Some asset
  ↔ ∃ url, (key, Some url) ∈ slots ∧ url ≠ ""
           ∧ asset = {| asset_key := key; asset_type := IMAGE;
                        asset_url := Some url; asset_prompt := None;
                        asset_frameConfig := None; asset_loaded := false |}.
Proof.
  intros Hdup. revert this.
  induction slots as [|[k url] slots IH]; intros this Hfresh.
  - cbn. rewrite Hfresh. split; [done|].
    by intros (url & []%elem_of_nil & _).
  - rewrite queue_urls_cons, run_calls_app.
    cbn in Hdup. apply NoDup_cons in Hdup as [Hk Hdup].
    destruct (decide (key = k)) as [->|Hne].
    + rewrite run_queue_urls_other by done. rewrite run_queue_url_same.
      split.
      * destruct url as [u|]; [|by rewrite Hfresh].
        destruct (truthy (Some u)) eqn:Hu; [|by rewrite Hfresh].
        intros [= <-]. exists u. split_and!; [by left| |done].
        cbn in Hu. by apply negb_true_iff, String.eqb_neq in Hu.
      * intros (u & Hin & Hu & ->).
        apply elem_of_cons in Hin as [[= <-]|Hin].
        -- cbn. apply String.eqb_neq in Hu as ->. reflexivity.
        -- destruct Hk. apply list_elem_of_fmap. by exists (k, Some u).
    + rewrite IH; [|done|by rewrite run_queue_url_other].
      split.
      * intros (u & Hin & Hu & ->). exists u. split_and!; [by right|done|done].
      * intros (u & Hin & Hu & ->). exists u. split_and!; [|done|done].
        apply elem_of_cons in Hin as [[= ? _]|Hin]; done.
Qed.

Lemma run_queue_urls_lookup slots key asset :
  NoDup slots.*1 →
  assets (run_calls (queue_urls slots) new_AssetLoader) !! key = Some asset
  ↔ ∃ url, (key, Some url) ∈ slots ∧ url ≠ ""
           ∧ asset = {| asset_key := key; asset_type := IMAGE;
                        asset_url := Some url; asset_prompt := None;
                        asset_frameConfig := None; asset_loaded := false |}.
Proof.
  intros Hdup. apply run_queue_urls_lookup_from; [done|].
  apply lookup_empty.
Qed.

(** [loadAll] on a new loader filled from slots with distinct keys
    generates nothing and asks for exactly the non-empty URLs of the
    slots, each under the key of its slot. *)
Lemma loadAll_queue_urls (encodeURIComponent : string → result JSError string)
    slots :
  NoDup slots.*1 →
  let loader := run_calls (queue_urls slots) new_AssetLoader in
  generation_requests loader = []
  ∧ generate_all encodeURIComponent loader = Ok loader
  ∧ generatedAssets loader = ∅
  ∧ loadAll encodeURIComponent loader = Ok (loader, load_requests loader)
  ∧ ∀ r, r ∈ load_requests loader
         ↔ ∃ key url, r = LoadImage key url
                      ∧ (key, Some url) ∈ slots ∧ url ≠ "".
Proof.
  intros Hdup loader.
  assert (Hnone : generation_requests loader = []).
  { apply url_only_no_generation. intros key asset Hasset.
    apply run_queue_urls_lookup in Hasset as (url & _ & _ & ->); [|done].
    cbn. eauto. }
  assert (Hgen : generate_all encodeURIComponent loader = Ok loader).
  { unfold generate_all. by rewrite Hnone. }
  split_and!; [done|done|apply run_queue_urls_generated| |].
  - unfold loadAll. by rewrite Hgen.
  - intros r. rewrite load_requests_elem. split.
    + intros (key & asset & Hasset & Hr).
      apply run_queue_urls_lookup in Hasset as (url & Hslot & Hurl & ->);
        [|done].
      exists key, url. split_and!; [|done|done].
      unfold load_request, or_else in Hr. cbn in Hr.
      apply String.eqb_neq in Hurl. rewrite Hurl in Hr. cbn in Hr.
      rewrite Hurl in Hr. cbn in Hr. by injection Hr as <-.
    + intros (key & url & -> & Hslot & Hurl).
      eexists key, _. split.
      * apply run_queue_urls_lookup; [done|]. by exists url.
      * unfold load_request, or_else. cbn.
        apply String.eqb_neq in Hurl. rewrite Hurl. cbn.
        by rewrite Hurl.
Qed.

(** The slots each preload reads from the image record of its game. *)
Lemma preload_calls_slots which sceneId g images :
  preserved_images g = Some images →
  sceneId ≠ "" →
  (which = ObstacleRunPreload → is_Some (obstacle_run_record g sceneId)) →
  preload_calls which (scene_init sceneId (Some g))
  = queue_urls
      match which with
      | BootQueue | DynamicPreload =>
          [("avatar", img_avatar images);
           ("background", img_background images);
           ("npc", img_npc images)]
      | ObstacleRunPreload =>
          [("bg_" +:+ sceneId, img_background images);
           ("obstacle_" +:+ sceneId, img_avatar images)]
      | ConclusionPreload =>
          [("background", img_background images);
           ("avatar", img_avatar images)]
      end.
Proof.
  intros Himages Hid Hrecord. apply String.eqb_neq in Hid.
  unfold queue_urls.
  destruct which; cbn;
    unfold BootScene_queueAssetsForScene_calls, DynamicScene_preload_calls,
      ObstacleRunScene_preload_calls, ConclusionScene_preload_calls,
      preload_guard; cbn; rewrite ?Hid, ?Himages; cbn;
    rewrite ?app_nil_r; try reflexivity.
  destruct (Hrecord eq_refl) as [scene ->]. cbn.
  by rewrite ?Himages, ?app_nil_r.
Qed.

(** C6: whichever scene is about to be shown, when the preserved game data
    carries an [images] record every call its preload makes on the loader
    is a [queueAssetWithURL] whose URL is a field of that record; no
    [queueAsset] is made, and [loadAll] on the loader so filled issues no
    [generateAsset], so [generateImage] is not invoked. What is queued is
    exactly the scene's image slots that hold a non-empty URL, each under
    its key with the URL of its own field: [avatar], [background] and
    [npc] for the boot and the dynamic scene, [bg_<id>] from
    [images.background] and [obstacle_<id>] from [images.avatar] for an
    obstacle run, [background] and [avatar] for a conclusion; and these
    are exactly the files [loadAll] then asks the Phaser loader for. *)
Theorem preload_only_by_url (encodeURIComponent : string → result JSError string)
    (which : Preloader) (sceneId : string) (g : LegacyGameResponse)
    (images : GameImages) :
  preserved_images g = Some images →
  let this := scene_init sceneId (Some g) in
  let slots :=
    match which with
    | BootQueue | DynamicPreload =>
        [("avatar", img_avatar images);
         ("background", img_background images);
         ("npc", img_npc images)]
    | ObstacleRunPreload =>
        [("bg_" +:+ sceneId, img_background images);
         ("obstacle_" +:+ sceneId, img_avatar images)]
    | ConclusionPreload =>
        [("background", img_background images);
         ("avatar", img_avatar images)]
    end in
  (∀ c, c ∈ preload_calls which this → from_image_set images c)
  ∧ (∀ key type prompt, CallQueueAsset key type prompt ∉ preload_calls which this)
  ∧ (∃ loader,
       assetLoader (preload which this) = Some loader
       ∧ generation_requests loader = []
       ∧ generate_all encodeURIComponent loader = Ok loader
       ∧ generatedAssets loader = ∅)
  ∧ (sceneId ≠ "" →
     (which = ObstacleRunPreload → is_Some (obstacle_run_record g sceneId)) →
     (∀ c, c ∈ preload_calls which this
           ↔ ∃ key url, c = CallQueueAssetWithURL key IMAGE url
                        ∧ (key, Some url) ∈ slots ∧ url ≠ "")
     ∧ ∃ loader requests,
         assetLoader (preload which this) = Some loader
         ∧ loadAll encodeURIComponent loader = Ok (loader, requests)
         ∧ ∀ r, r ∈ requests
                ↔ ∃ key url, r = LoadImage key url
                             ∧ (key, Some url) ∈ slots ∧ url ≠ "").
Proof.
  intros Himages this slots.
  pose proof (preload_calls_from_image_set which this g images eq_refl Himages)
    as Hcalls.
  split_and!.
  - by apply Forall_forall.
  - intros key type prompt Hin.
    apply (proj1 (Forall_forall _ _) Hcalls) in Hin as (? & ? & [=] & _).
  - exists (run_calls (preload_calls which this) new_AssetLoader).
    destruct (run_calls_url_only images (preload_calls which this)
                new_AssetLoader Hcalls) as [Hurl Hgen].
    { apply map_Forall_empty. }
    split_and!; [done| | |done].
    + by apply url_only_no_generation.
    + unfold generate_all. by rewrite url_only_no_generation.
  - intros Hid Hrecord.
    pose proof (preload_calls_slots which sceneId g images Himages Hid Hrecord)
      as Hslots.
    fold this slots in Hslots.
    assert (Hdup : NoDup slots.*1).
    { subst slots. destruct which; cbn; by compute_done. }
    split.
    + intros c. rewrite Hslots. apply queue_urls_elem.
    + destruct (loadAll_queue_urls encodeURIComponent slots Hdup)
        as (_ & _ & _ & Hload & Hrequests).
      eexists (run_calls (queue_urls slots) new_AssetLoader), _.
      split_and!; [|exact Hload|exact Hrequests].
      unfold preload. cbn. by rewrite Hslots.
Qed.

Lemma preload_only_by_url_witness :
  ∃ loader requests,
    assetLoader (preload ObstacleRunPreload
                   (scene_init "challenge_a" (Some knight_game))) = Some loader
    ∧ loadAll encode_unreserved loader = Ok (loader, requests)
    ∧ ∃ url, img_background knight_images = Some url
             ∧ LoadImage "bg_challenge_a" url ∈ requests.
Proof.
  destruct (preload_only_by_url encode_unreserved ObstacleRunPreload
              "challenge_a" knight_game knight_images eq_refl)
    as (_ & _ & _ & Hexact).
  destruct Hexact as (_ & loader & requests & Hloader & Hload & Hrequests);
    [discriminate|by eexists|].
  exists loader, requests. split_and!; [done|done|].
  eexists. split; [reflexivity|].
  apply Hrequests. eexists _, _.
  split_and!; [reflexivity|by left|discriminate].
Defined.

(** ** The conclusion screen *)

Lemma renderConclusionScene_avatar textures g sceneId :
  DrawImage "avatar" ∈ renderConclusionScene textures g sceneId
  ↔ sceneId = "good_ending" ∧ "avatar" ∈ textures.
Proof.
  unfold renderConclusionScene, createRestartButton.
  destruct (String.eqb_spec sceneId "good_ending") as [->|Hne];
    destruct (decide ("avatar" ∈ textures)) as [Hin|Hout];
    [rewrite (bool_decide_eq_true_2 _ Hin)
    |rewrite (bool_decide_eq_false_2 _ Hout)
    |rewrite (bool_decide_eq_true_2 _ Hin)
    |rewrite (bool_decide_eq_false_2 _ Hout)];
    destruct (bool_decide ("background" ∈ textures));
    destruct (game_data g); cbn; set_solver.
Qed.

Lemma renderConclusionScene_text textures g d sceneId :
  game_data g = Some d →
  DrawText (if String.eqb sceneId "good_ending"
            then climax d +:+ LF +:+ LF +:+ ending_good d
                   +:+ LF +:+ LF +:+ epilogue d
            else climax d +:+ LF +:+ LF +:+ ending_bad d)
    ∈ renderConclusionScene textures g sceneId.
Proof.
  intros Hd. unfold renderConclusionScene. rewrite Hd.
  rewrite !elem_of_app. right. right. right. left.
  apply list_elem_of_singleton. reflexivity.
Qed.



(** ** Restart *)

(** C3, as stated: restart from an ending would leave nothing held and
    nothing stored. The Play Again button refutes it: the stored copy
    stays and the title scene holds the game again. *)
Lemma Play_Again_keeps_game_data :
  running knight_ending = KConclusionScene
  ∧ running (ConclusionScene_restart None knight_ending) = KTitleScene
  ∧ ¬ cleared (ConclusionScene_restart None knight_ending).
Proof.
  split_and!; [reflexivity|reflexivity|].
  intros [Hheld _]. discriminate Hheld.
Qed.

(** C3, amended: the Play Again button of either ending returns to the
    title scene and leaves the page and the stored copy as they are, the
    title scene holding the game it is handed or reads back from storage;
    it is the restart button of the title scene that empties the held game
    data and removes the stored copy, showing the prompt screen. *)
Theorem restart_clears_at_title (init_data : option LegacyGameResponse)
    (app : App) :
  running app = KConclusionScene →
  let title := ConclusionScene_restart init_data app in
  let idle := restartGame title in
  running title = KTitleScene
  ∧ localStorage title = localStorage app
  ∧ document title = document app
  ∧ (∀ g, init_data = Some g → TitleScene_gameData title = Typed (Some g))
  ∧ (∀ g, init_data = None →
          localStorage app !! "gameData" = Some (JSON_stringify g) →
          TitleScene_gameData title = Typed (Some g))
  ∧ cleared idle
  ∧ running idle = KTitleScene
  ∧ prompt_container_display (document idle) = "flex"
  ∧ error_message_textContent (document idle) = ""
  ∧ (∀ k, k ≠ "gameData" → localStorage idle !! k = localStorage app !! k).
Proof.
  intros Hrun title idle.
  assert (Hframe : running title = KTitleScene
                   ∧ localStorage title = localStorage app
                   ∧ document title = document app).
  { subst title. unfold ConclusionScene_restart, TitleScene_init.
    destruct init_data; [done|]. cbn.
    destruct (localStorage app !! "gameData") as [item|]; [|done].
    destruct (stored_truthy item); [|done].
    by destruct (JSON_parse item). }
  destruct Hframe as (Hr & Hs & Hd).
  split_and!; try done.
  - intros g ->. reflexivity.
  - intros g -> Hstored. subst title.
    unfold ConclusionScene_restart, TitleScene_init; cbn.
    by rewrite Hstored.
  - split; [reflexivity|]. subst idle. cbn. apply lookup_delete_eq.
  - intros k Hk. subst idle. cbn. rewrite lookup_delete_ne by done.
    by rewrite Hs.
Qed.

Lemma restart_clears_at_title_witness :
  cleared (restartGame (ConclusionScene_restart None knight_ending)).
Proof.
  apply (restart_clears_at_title None knight_ending). reflexivity.
Defined.

(** ** Generation failure *)

Section Generation.
Variable axios_post : string → result JSError AxiosResponse.

(** Either the whole converted game or the one generic error. *)
Lemma generateGame_all_or_nothing prompt :
  (∃ response d,
     axios_post prompt = Ok response
     ∧ data_game_data response = Some d
     ∧ generateGame axios_post prompt
       = Ok (convertToSceneStructure d (data_prompt response)))
  ∨ generateGame axios_post prompt = Throw (Error GENERATION_FAILED).
Proof.
  unfold generateGame, try_catch.
  destruct (axios_post prompt) as [response|e]; cbn; [|by right].
  destruct (data_game_data response) as [d|] eqn:E; cbn; [|by right].
  left. by exists response, d.
Qed.

(** C4: when the backend call fails, [generateGame] throws the fixed
    generic error and yields no game; [startGameGeneration] then shows
    that message, hides the loading screen and shows the prompt screen
    again, stores nothing and schedules no start of the game. *)
Theorem generateGame_failure_is_generic (prompt : string) (e : JSError)
    (app : App) :
  axios_post prompt = Throw e →
  let app' := startGameGeneration axios_post prompt app in
  generateGame axios_post prompt
    = Throw (Error "Failed to generate game. Please try again.")
  ∧ (∀ g, generateGame axios_post prompt ≠ Ok g)
  ∧ error_message_textContent (document app')
    = "Failed to generate game. Please try again."
  ∧ error_message_display (document app') = "block"
  ∧ loading_screen_display (document app') = "none"
  ∧ prompt_container_display (document app') = "flex"
  ∧ localStorage app' = localStorage app
  ∧ scheduled_boot app' = scheduled_boot app
  ∧ running app' = running app
  ∧ TitleScene_gameData app' = TitleScene_gameData app.
Proof.
  intros Hpost app'.
  assert (Hgen : generateGame axios_post prompt
                 = Throw (Error GENERATION_FAILED)).
  { unfold generateGame, try_catch. by rewrite Hpost. }
  subst app'. unfold startGameGeneration. rewrite Hgen.
  split_and!; done.
Qed.
End Generation.

Lemma generateGame_failure_is_generic_witness :
  prompt_container_display
    (document (startGameGeneration unreachable_backend knight_prompt waiting_page))
  = "flex".
Proof.
  apply (generateGame_failure_is_generic unreachable_backend knight_prompt
           (AxiosError "Network Error") waiting_page).
  reflexivity.
Defined.

(** * Further properties of the client *)

(** ** What [loadAll] asks of the Phaser loader *)

Section LoadAll.
Variable encodeURIComponent : string → result JSError string.

(** The URL [generateAsset] stores for a key and a prompt. *)
Lemma generateAsset_stores key p this :
  generateAsset encodeURIComponent key p this
  = Ok (set_generated key
          match generateImage encodeURIComponent p with
          | Ok url => url
          | Throw _ => fallbackUrl key
          end this).
Proof.
  unfold generateAsset, try_catch.
  by destruct (generateImage encodeURIComponent p).
Qed.

Lemma generate_fold_Ok (requests : list (string * string)) this :
  foldl (λ acc '(key, p), l ← acc; generateAsset encodeURIComponent key p l)
        (Ok this) requests
  = Ok (foldl (λ l '(key, p),
                 set_generated key
                   match generateImage encodeURIComponent p with
                   | Ok url => url
                   | Throw _ => fallbackUrl key
                   end l) this requests).
Proof.
  revert this. induction requests as [|[key p] requests IH]; intros this; [done|].
  cbn. rewrite generateAsset_stores. apply IH.
Qed.

Lemma generate_fold_assets (requests : list (string * string)) this :
  assets (foldl (λ l '(key, p),
                   set_generated key
                     match generateImage encodeURIComponent p with
                     | Ok url => url
                     | Throw _ => fallbackUrl key
                     end l) this requests)
  = assets this.
Proof.
  revert this. induction requests as [|[key p] requests IH]; intros this; [done|].
  cbn. by rewrite IH.
Qed.

Lemma generate_fold_other (requests : list (string * string)) this k :
  k ∉ requests.*1 →
  generatedAssets (foldl (λ l '(key, p),
                   set_generated key
                     match generateImage encodeURIComponent p with
                     | Ok url => url
                     | Throw _ => fallbackUrl key
                     end l) this requests) !! k
  = generatedAssets this !! k.
Proof.
  revert this. induction requests as [|[key p] requests IH]; intros this Hk; [done|].
  cbn in *. apply not_elem_of_cons in Hk as [Hne Hk].
  rewrite IH by done. cbn. by rewrite lookup_insert_ne.
Qed.

Lemma generate_fold_lookup (requests : list (string * string)) this k p :
  NoDup requests.*1 → (k, p) ∈ requests →
  generatedAssets (foldl (λ l '(key, p),
                   set_generated key
                     match generateImage encodeURIComponent p with
                     | Ok url => url
                     | Throw _ => fallbackUrl key
                     end l) this requests) !! k
  = Some match generateImage encodeURIComponent p with
         | Ok url => url
         | Throw _ => fallbackUrl k
         end.
Proof.
  revert this. induction requests as [|[key q] requests IH]; intros this Hnd Hin.
  - by apply elem_of_nil in Hin.
  - cbn in *. apply NoDup_cons in Hnd as [Hfresh Hnd].
    apply elem_of_cons in Hin as [[= -> ->]|Hin].
    + rewrite generate_fold_other by done. cbn. by rewrite lookup_insert_eq.
    + by apply IH.
Qed.

Lemma generation_requests_NoDup this : NoDup (generation_requests this).*1.
Proof.
  unfold generation_requests.
  pose proof (NoDup_fst_map_to_list (assets this)) as Hnd.
  induction (map_to_list (assets this)) as [|[key asset] entries IH]; [constructor|].
  cbn in *. apply NoDup_cons in Hnd as [Hfresh Hnd].
  destruct (needs_generation asset) as [p|]; cbn; [|by apply IH].
  apply NoDup_cons. split; [|by apply IH].
  intros Hin. apply Hfresh.
  apply list_elem_of_fmap in Hin as ([k' p'] & -> & Hin).
  apply list_elem_of_omap in Hin as ([k'' a''] & Hin & Heq).
  cbn in Heq. destruct (needs_generation a''); [|done].
  injection Heq as <- _. cbn. apply list_elem_of_fmap. by exists (k'', a'').
Qed.

Lemma generation_requests_inv this key p :
  (key, p) ∈ generation_requests this →
  ∃ asset, assets this !! key = Some asset ∧ needs_generation asset = Some p.
Proof.
  unfold generation_requests.
  intros ([k a] & Hin & Heq)%list_elem_of_omap. cbn in Heq.
  destruct (needs_generation a) as [q|] eqn:E; [|done].
  injection Heq as -> ->. exists a. split; [|done].
  by apply elem_of_map_to_list.
Qed.

(** The loader after the generation phase, read key by key. *)
Lemma generate_all_lookup this :
  ∃ this',
    generate_all encodeURIComponent this = Ok this'
    ∧ assets this' = assets this
    ∧ ∀ key,
        generatedAssets this' !! key
        = match assets this !! key ≫= needs_generation with
          | Some p =>
              Some match generateImage encodeURIComponent p with
                   | Ok url => url
                   | Throw _ => fallbackUrl key
                   end
          | None => generatedAssets this !! key
          end.
Proof.
  unfold generate_all. rewrite generate_fold_Ok. eexists. split; [done|].
  split; [apply generate_fold_assets|].
  intros key.
  destruct (assets this !! key ≫= needs_generation) as [p|] eqn:E.
  - apply generate_fold_lookup; [apply generation_requests_NoDup|].
    destruct (assets this !! key) as [asset|] eqn:Ea; [|done]. cbn in E.
    by eapply generation_requests_elem.
  - apply generate_fold_other.
    intros ([k p] & -> & Hin)%list_elem_of_fmap.
    apply generation_requests_inv in Hin as (asset & Ha & Hp).
    cbn in E. rewrite Ha in E. cbn in E. congruence.
Qed.

Lemma load_request_key this key asset r :
  load_request this key asset = Some r → request_key r = key.
Proof.
  unfold load_request. destruct (asset_loaded asset); [done|].
  destruct (or_else _ _) as [u|]; [|done].
  destruct (truthy (Some u)); [|done].
  destruct (asset_type asset); cbn; try by intros [= <-].
  destruct (asset_frameConfig asset); cbn; [|done]. by intros [= <-].
Qed.

Lemma load_requests_NoDup this : NoDup (request_key <$> load_requests this).
Proof.
  unfold load_requests.
  pose proof (NoDup_fst_map_to_list (assets this)) as Hnd.
  induction (map_to_list (assets this)) as [|[key asset] entries IH]; [constructor|].
  cbn in *. apply NoDup_cons in Hnd as [Hfresh Hnd].
  destruct (load_request this key asset) as [r|] eqn:E; cbn; [|by apply IH].
  apply NoDup_cons. split; [|by apply IH].
  apply load_request_key in E as ->.
  intros Hin. apply Hfresh.
  apply list_elem_of_fmap in Hin as (r' & Hkey & Hin).
  apply list_elem_of_omap in Hin as ([k' a'] & Hin & Hr').
  apply load_request_key in Hr'. cbn in *.
  apply list_elem_of_fmap. exists (k', a'). split; [cbn; congruence|done].
Qed.

(** X1: [loadAll] never throws. It hands a key to the Phaser loader at
    most once, only for a queued entry not yet marked loaded, under a
    non-empty URL: the entry's own URL when it has one, the generated URL
    of its key otherwise. The kind of request follows the entry's type, and
    a spritesheet is requested only with the frame configuration it was
    queued with. *)
Theorem loadAll_requests_sound (this : AssetLoader) :
  ∃ this' requests,
    loadAll encodeURIComponent this = Ok (this', requests)
    ∧ assets this' = assets this
    ∧ NoDup (request_key <$> requests)
    ∧ ∀ r, r ∈ requests →
        ∃ asset,
          assets this !! request_key r = Some asset
          ∧ asset_loaded asset = false
          ∧ request_url r ≠ ""
          ∧ or_else (asset_url asset) (generatedAssets this' !! request_key r)
            = Some (request_url r)
          ∧ (request_type r).1 = asset_type asset
          ∧ (asset_type asset = SPRITESHEET →
             asset_frameConfig asset = (request_type r).2).
Proof.
  destruct (generate_all_lookup this) as (this' & Hgen & Ha & _).
  exists this', (load_requests this').
  unfold loadAll. rewrite Hgen. cbn.
  split_and!; [done|done|apply load_requests_NoDup|].
  intros r (key & asset & Hk & Hr)%load_requests_elem.
  pose proof (load_request_key _ _ _ _ Hr) as ->.
  rewrite Ha in Hk. exists asset. split; [done|].
  unfold load_request in Hr.
  destruct (asset_loaded asset); [done|]. split; [done|].
  destruct (or_else (asset_url asset) (generatedAssets this' !! key))
    as [u|] eqn:Eu; [|done].
  destruct (truthy (Some u)) eqn:Et; [|done].
  assert (u ≠ "") by (cbn in Et; by apply negb_true_iff, String.eqb_neq in Et).
  destruct (asset_type asset) eqn:Etype.
  - injection Hr as <-. by split_and!.
  - injection Hr as <-. by split_and!.
  - destruct (asset_frameConfig asset) as [fc|]; [|done].
    injection Hr as <-. by split_and!.
Qed.
End LoadAll.

Section LoadAllComplete.
Variable encodeURIComponent : string → result JSError string.

(** X2: [loadAll] asks for every queued image that is not yet marked
    loaded and has something to load from: under its own URL when that is
    non-empty; otherwise, given a non-empty prompt, under the placeholder
    URL of the encoded prompt, or under the fallback URL of its key when
    generating throws. An entry with neither, and no URL generated
    earlier, is not asked for. *)
Theorem loadAll_requests_complete (this : AssetLoader) (key : string)
    (asset : AssetInfo) :
  assets this !! key = Some asset →
  asset_loaded asset = false →
  asset_type asset = IMAGE →
  ∃ this' requests,
    loadAll encodeURIComponent this = Ok (this', requests)
    ∧ (∀ url, asset_url asset = Some url → url ≠ "" →
         LoadImage key url ∈ requests)
    ∧ (∀ p, truthy (asset_url asset) = false →
         asset_prompt asset = Some p → p ≠ "" →
         LoadImage key
           match encodeURIComponent p with
           | Ok encoded =>
               "https://via.placeholder.com/400x400?text=" +:+ encoded
           | Throw _ =>
               "https://via.placeholder.com/400x400?text=Failed+to+generate+"
                 +:+ key
           end ∈ requests)
    ∧ (truthy (asset_url asset) = false →
       truthy (asset_prompt asset) = false →
       generatedAssets this !! key = None →
       key ∉ request_key <$> requests).
Proof.
  intros Hk Hloaded Htype.
  destruct (generate_all_lookup encodeURIComponent this)
    as (this' & Hgen & Ha & Hlook).
  exists this', (load_requests this').
  unfold loadAll. rewrite Hgen. cbn. split; [done|].
  specialize (Hlook key). rewrite Hk in Hlook. cbn in Hlook.
  unfold needs_generation in Hlook. rewrite Hloaded in Hlook.
  split_and!.
  - intros url Hurl Hne. apply load_requests_elem. exists key, asset.
    rewrite Ha. split; [done|].
    unfold load_request, or_else. rewrite Hloaded, Hurl, Htype. cbn.
    apply String.eqb_neq in Hne. rewrite Hne. cbn. by rewrite Hne.
  - intros p Hnourl Hp Hne. apply load_requests_elem. exists key, asset.
    rewrite Ha. split; [done|].
    rewrite Hp in Hlook. cbn in Hlook.
    apply String.eqb_neq in Hne. rewrite Hne in Hlook. cbn in Hlook.
    unfold load_request, or_else. rewrite Hloaded, Hnourl, Hlook, Htype.
    unfold generateImage.
    destruct (encodeURIComponent p) as [encoded|e]; reflexivity.
  - intros Hnourl Hnoprompt Hnone Hin.
    rewrite Hnoprompt in Hlook. cbn in Hlook. rewrite Hnone in Hlook.
    apply list_elem_of_fmap in Hin as (r & Hkey & Hin).
    apply load_requests_elem in Hin as (key' & asset' & Hk' & Hr).
    pose proof (load_request_key _ _ _ _ Hr) as Hkey'.
    assert (key' = key) as -> by congruence.
    rewrite Ha, Hk in Hk'. injection Hk' as <-.
    unfold load_request, or_else in Hr.
    by rewrite Hloaded, Hnourl, Hlook in Hr.
Qed.
End LoadAllComplete.

Lemma loadAll_requests_complete_witness :
  ∃ this' requests,
    loadAll encode_failing
      (queueAsset "obstacle_challenge_a" IMAGE "Obstacles" None new_AssetLoader)
    = Ok (this', requests)
    ∧ LoadImage "obstacle_challenge_a"
        "https://via.placeholder.com/400x400?text=Failed+to+generate+obstacle_challenge_a"
        ∈ requests.
Proof.
  destruct (loadAll_requests_complete encode_failing
              (queueAsset "obstacle_challenge_a" IMAGE "Obstacles" None
                          new_AssetLoader)
              "obstacle_challenge_a" obstacle_entry)
    as (this' & requests & Hload & _ & Hprompt & _); [reflexivity..|].
  exists this', requests. split; [exact Hload|].
  apply (Hprompt "Obstacles"); [reflexivity|reflexivity|discriminate].
Defined.

(** ** Marking assets loaded *)

Lemma onLoadComplete_lookup textures audio this key :
  assets (onLoadComplete textures audio this) !! key
  = (λ asset,
       if bool_decide (key ∈ textures ∨ key ∈ audio)
       then {| asset_key := asset_key asset;
               asset_type := asset_type asset;
               asset_url := asset_url asset;
               asset_prompt := asset_prompt asset;
               asset_frameConfig := asset_frameConfig asset;
               asset_loaded := true |}
       else asset) <$> assets this !! key.
Proof.
  unfold onLoadComplete; cbn. rewrite map_lookup_imap.
  by destruct (assets this !! key).
Qed.

Lemma onLoadComplete_dom textures audio this :
  dom (assets (onLoadComplete textures audio this)) = dom (assets this).
Proof.
  apply set_eq. intros key. rewrite !elem_of_dom, onLoadComplete_lookup.
  by rewrite fmap_is_Some.
Qed.

Lemma onLoadComplete_count textures audio this :
  loaded_count this ≤ loaded_count (onLoadComplete textures audio this).
Proof.
  rewrite !loaded_count_filter, <- !size_dom.
  apply subseteq_size. intros key.
  rewrite !elem_of_dom. intros [asset [Ha Hl]%map_lookup_filter_Some].
  cbn in Hl.
  eexists. apply map_lookup_filter_Some. rewrite onLoadComplete_lookup, Ha.
  split; [reflexivity|]. cbn. by case_bool_decide.
Qed.

(** X3: [onLoadComplete] keeps the queued keys and everything queued
    about them but the [loaded] mark; afterwards a key is loaded exactly
    when it is queued and either was loaded before or names a texture or a
    cached sound. So no mark is ever taken back, [getProgress] never goes
    down, and it is 1 once every queued key names a texture. *)
Theorem onLoadComplete_marks (textures audio : gset string)
    (this : AssetLoader) :
  let after := onLoadComplete textures audio this in
  dom (assets after) = dom (assets this)
  ∧ generatedAssets after = generatedAssets this
  ∧ (∀ key,
       isLoaded key after
       = bool_decide (key ∈ dom (assets this))
         && (isLoaded key this || bool_decide (key ∈ textures ∨ key ∈ audio)))
  ∧ (∀ key asset, assets this !! key = Some asset →
       ∃ asset', assets after !! key = Some asset'
                 ∧ asset_url asset' = asset_url asset
                 ∧ asset_prompt asset' = asset_prompt asset
                 ∧ asset_type asset' = asset_type asset
                 ∧ asset_frameConfig asset' = asset_frameConfig asset)
  ∧ (getProgress this <= getProgress after)%Q
  ∧ (dom (assets this) ⊆ textures → (getProgress after == 1)%Q).
Proof.
  intros after.
  pose proof (onLoadComplete_dom textures audio this) as Hdom.
  pose proof (onLoadComplete_count textures audio this) as Hcount.
  assert (Hsize : size (assets after) = size (assets this)).
  { unfold after. by rewrite <- !size_dom, Hdom. }
  split_and!.
  - done.
  - done.
  - intros key. unfold isLoaded. subst after.
    rewrite onLoadComplete_lookup.
    destruct (assets this !! key) as [asset|] eqn:Ea; cbn.
    + rewrite (bool_decide_eq_true_2 (key ∈ dom (assets this)))
        by (apply elem_of_dom; eauto).
      case_bool_decide; cbn; [by rewrite orb_true_r|by rewrite orb_false_r].
    + rewrite (bool_decide_eq_false_2 (key ∈ dom (assets this))); [done|].
      rewrite elem_of_dom, Ea. by intros [].
  - intros key asset Ha. subst after. rewrite onLoadComplete_lookup, Ha. cbn.
    eexists. split; [done|]. by case_bool_decide.
  - subst after. unfold getProgress. rewrite Hsize.
    destruct (0 <? size (assets this))%nat eqn:E; [|apply Qle_refl].
    unfold Qle; cbn. apply Z.mul_le_mono_nonneg_r; lia.
  - intros Hall. subst after. unfold getProgress. rewrite Hsize.
    destruct (0 <? size (assets this))%nat eqn:E; [|reflexivity].
    apply Nat.ltb_lt in E.
    assert (Hfull : loaded_count (onLoadComplete textures audio this)
                    = size (assets this)).
    { rewrite loaded_count_filter, <- Hsize. f_equal.
      apply map_filter_id. intros key asset' Ha'. cbn.
      rewrite onLoadComplete_lookup in Ha'.
      destruct (assets this !! key) as [asset|] eqn:Ea; [|done].
      cbn in Ha'. rewrite bool_decide_eq_true_2 in Ha'.
      - by injection Ha' as <-.
      - left. apply Hall, elem_of_dom. eauto. }
    rewrite Hfull. unfold Qeq; cbn. lia.
Qed.

Lemma onLoadComplete_marks_witness :
  (getProgress
     (onLoadComplete {["bg_challenge_a"; "obstacle_challenge_a"]} ∅ half_loaded)
   == 1)%Q.
Proof.
  apply (onLoadComplete_marks {["bg_challenge_a"; "obstacle_challenge_a"]} ∅
           half_loaded).
  vm_compute. set_solver.
Defined.

Section Requeue.
Variable encodeURIComponent : string → result JSError string.

(** X4: queueing a key by URL replaces whatever was queued under it: the
    key is marked not loaded again, is no longer generated from an earlier
    prompt, and the next [loadAll] asks for it under the new URL; the marks
    of the other keys stay. *)
Theorem requeue_by_url_wins (this : AssetLoader) (key url : string) :
  url ≠ "" →
  let queued := queueAssetWithURL key IMAGE url None this in
  isLoaded key queued = false
  ∧ (∀ k, k ≠ key → isLoaded k queued = isLoaded k this)
  ∧ ¬ (key ∈ (generation_requests queued).*1)
  ∧ ∃ this' requests,
      loadAll encodeURIComponent queued = Ok (this', requests)
      ∧ LoadImage key url ∈ requests
      ∧ ∀ other, LoadImage key other ∈ requests → other = url.
Proof.
  intros Hurl queued.
  assert (Hk : assets queued !! key
               = Some {| asset_key := key; asset_type := IMAGE;
                         asset_url := Some url; asset_prompt := None;
                         asset_frameConfig := None; asset_loaded := false |}).
  { subst queued. cbn. apply lookup_insert_eq. }
  split_and!.
  - unfold isLoaded. by rewrite Hk.
  - intros k Hne. unfold isLoaded. subst queued. cbn.
    by rewrite lookup_insert_ne.
  - intros ([k p] & Heq & Hin)%list_elem_of_fmap. cbn in Heq. subst k.
    apply generation_requests_inv in Hin as (asset & Ha & Hp).
    rewrite Hk in Ha. by injection Ha as <-.
  - destruct (loadAll_requests_complete encodeURIComponent queued key _ Hk
                eq_refl eq_refl)
      as (this' & requests & Hload & Hdirect & _).
    exists this', requests. split_and!; [done|by apply Hdirect|].
    intros other Hin.
    destruct (loadAll_requests_sound encodeURIComponent queued)
      as (this'' & requests' & Hload' & _ & _ & Hsound).
    rewrite Hload in Hload'. injection Hload' as <- <-.
    destruct (Hsound _ Hin) as (asset & Ha & _ & _ & Hor & _).
    change (request_key (LoadImage key other)) with key in *.
    change (request_url (LoadImage key other)) with other in *.
    rewrite Hk in Ha. injection Ha as <-.
    unfold or_else in Hor. cbn in Hor.
    apply String.eqb_neq in Hurl. rewrite Hurl in Hor. cbn in Hor.
    by injection Hor as ->.
Qed.
End Requeue.

Lemma requeue_by_url_wins_witness :
  isLoaded "bg_challenge_a"
    (queueAssetWithURL "bg_challenge_a" IMAGE "assets/background_0001.png" None
                       half_loaded)
  = false.
Proof.
  apply (requeue_by_url_wins encode_unreserved half_loaded "bg_challenge_a"
           "assets/background_0001.png").
  discriminate.
Defined.

(** ** What the scenes queue and draw *)

Lemma append_nonempty (s t : string) : t ≠ "" → s +:+ t ≠ "".
Proof. intros Ht. destruct s; [done|discriminate]. Qed.

(** The calls of a preload for a game without an [images] record. *)
Lemma preload_calls_no_images which this g :
  gameData this = Some g → preserved_images g = None →
  preload_calls which this
  = match which, preload_guard this with
    | ObstacleRunPreload, Some _ =>
        match obstacle_run_record g (currentSceneId this) with
        | Some scene =>
            [CallQueueAsset ("bg_" +:+ currentSceneId this) IMAGE
                            (ob_background_prompt scene);
             CallQueueAsset ("obstacle_" +:+ currentSceneId this) IMAGE
                            (obstacle_prompt scene)]
        | None => []
        end
    | _, _ => []
    end.
Proof.
  intros Hg Himages.
  destruct which; unfold preload_calls.
  - unfold BootScene_queueAssetsForScene_calls. rewrite Hg, Himages.
    by destruct (assetLoader this), (preload_guard this).
  - unfold DynamicScene_preload_calls, preload_guard. rewrite Hg.
    destruct (assetLoader this); [|done].
    destruct (String.eqb (currentSceneId this) ""); [done|].
    by rewrite Himages.
  - unfold ObstacleRunScene_preload_calls, preload_guard. rewrite Hg.
    destruct (assetLoader this); [|done].
    destruct (String.eqb (currentSceneId this) ""); [done|].
    by rewrite Himages.
  - unfold ConclusionScene_preload_calls, preload_guard. rewrite Hg.
    destruct (assetLoader this); [|done].
    destruct (String.eqb (currentSceneId this) ""); [done|].
    by rewrite Himages.
Qed.

Lemma preload_calls_no_game which this :
  gameData this = None → preload_calls which this = [].
Proof.
  intros Hg.
  destruct which; unfold preload_calls, BootScene_queueAssetsForScene_calls,
    DynamicScene_preload_calls, ObstacleRunScene_preload_calls,
    ConclusionScene_preload_calls, preload_guard; rewrite Hg;
    by destruct (assetLoader this).
Qed.

(** X5: [queueAsset] is called from one place only, the fallback of
    [ObstacleRunScene.preload] for a game without an [images] record, and
    then with the two prompts of the scene's record; [BootScene],
    [DynamicScene] and [ConclusionScene] queue nothing at all for such a
    game. *)
Theorem prompts_only_in_ObstacleRunScene (which : Preloader)
    (this : SceneFields) :
  (∀ key type p,
     CallQueueAsset key type p ∈ preload_calls which this →
     which = ObstacleRunPreload
     ∧ type = IMAGE
     ∧ ∃ g scene,
         gameData this = Some g
         ∧ preserved_images g = None
         ∧ obstacle_run_record g (currentSceneId this) = Some scene
         ∧ ((key = "bg_" +:+ currentSceneId this
             ∧ p = ob_background_prompt scene)
            ∨ (key = "obstacle_" +:+ currentSceneId this
               ∧ p = obstacle_prompt scene)))
  ∧ (∀ g, gameData this = Some g → preserved_images g = None →
          which ≠ ObstacleRunPreload → preload_calls which this = []).
Proof.
  split.
  - intros key type p Hin.
    destruct (gameData this) as [g|] eqn:Hg.
    2:{ rewrite preload_calls_no_game in Hin by done.
        by apply elem_of_nil in Hin. }
    destruct (preserved_images g) as [images|] eqn:Himages.
    { pose proof (preload_calls_from_image_set which this g images Hg Himages)
        as Hall.
      apply (proj1 (Forall_forall _ _) Hall) in Hin as (? & ? & [=] & _). }
    rewrite (preload_calls_no_images which this g Hg Himages) in Hin.
    destruct which; try (by destruct (preload_guard this);
                         apply elem_of_nil in Hin).
    destruct (preload_guard this); [|by apply elem_of_nil in Hin].
    destruct (obstacle_run_record g (currentSceneId this)) as [scene|] eqn:Hs;
      [|by apply elem_of_nil in Hin].
    split; [done|].
    apply elem_of_cons in Hin as [[= -> -> ->]|Hin].
    + split; [done|]. exists g, scene. split_and!; auto.
    + apply list_elem_of_singleton in Hin as [= -> -> ->].
      split; [done|]. exists g, scene. split_and!; auto.
  - intros g Hg Himages Hwhich.
    rewrite (preload_calls_no_images which this g Hg Himages).
    destruct which; try done; by destruct (preload_guard this).
Qed.

Lemma prompts_only_in_ObstacleRunScene_witness :
  preload_calls DynamicPreload
    (scene_init "quest_start"
       (Some (convertToSceneStructure (knight_story None) knight_prompt)))
  = [].
Proof.
  apply (proj2 (prompts_only_in_ObstacleRunScene DynamicPreload _)
           (convertToSceneStructure (knight_story None) knight_prompt));
    [reflexivity|reflexivity|discriminate].
Defined.

Lemma no_prompt_calls which this key type p :
  which ≠ ObstacleRunPreload →
  CallQueueAsset key type p ∉ preload_calls which this.
Proof.
  intros Hwhich Hin.
  destruct (gameData this) as [g|] eqn:Hg.
  2:{ rewrite preload_calls_no_game in Hin by done.
      by apply elem_of_nil in Hin. }
  destruct (preserved_images g) as [images|] eqn:Himages.
  - pose proof (preload_calls_from_image_set which this g images Hg Himages)
      as Hall.
    apply (proj1 (Forall_forall _ _) Hall) in Hin as (? & ? & [=] & _).
  - rewrite (preload_calls_no_images which this g Hg Himages) in Hin.
    destruct which; try done;
      destruct (preload_guard this); by apply elem_of_nil in Hin.
Qed.

(** X6: a scene id outside the six, to which a dangling reference of a
    stored game could lead, is not an error: [navigateToScene] takes the
    [default] branch and starts [DynamicScene], whose screen for such an id
    has one button, Continue, leading to [quest_start]; its preload queues
    nothing by prompt. For the empty id [create] goes back to the title
    scene instead. *)
Theorem unknown_scene_recovers (this : SceneFields) (g : LegacyGameResponse)
    (sceneId : string) (textures : gset string) :
  gameData this = Some g →
  sceneId ∉ scene_ids →
  ∃ st,
    navigateToScene this sceneId = Some st
    ∧ navigate_switch sceneId = (KDynamicScene, false)
    ∧ start_scene st = (KDynamicScene, scene_init sceneId (Some g))
    ∧ (sceneId ≠ "" →
       ∃ ws, DynamicScene_create textures (start_scene st).2 = Painted ws
             ∧ widget_buttons ws = [("Continue", "quest_start")]
             ∧ WText "Adventure Continues" ∈ ws)
    ∧ (sceneId = "" →
       DynamicScene_create textures (start_scene st).2 = Redirected KTitleScene)
    ∧ (∀ key type p,
         CallQueueAsset key type p ∉ preload_calls DynamicPreload (start_scene st).2).
Proof.
  intros Hg Hid.
  assert (Hneq : String.eqb sceneId "avatar_creation" = false
                 ∧ String.eqb sceneId "quest_start" = false
                 ∧ String.eqb sceneId "challenge_a" = false
                 ∧ String.eqb sceneId "challenge_b" = false
                 ∧ String.eqb sceneId "good_ending" = false
                 ∧ String.eqb sceneId "bad_ending" = false).
  { unfold scene_ids in Hid. split_and!; apply String.eqb_neq;
      intros ->; apply Hid; set_solver. }
  destruct Hneq as (H1 & H2 & H3 & H4 & H5 & H6).
  assert (Hswitch : navigate_switch sceneId = (KDynamicScene, false)).
  { unfold navigate_switch. by rewrite H1, H2, H3, H4, H5, H6. }
  eexists. unfold navigateToScene. rewrite Hg. split; [done|].
  unfold start_scene, navigate_target; cbn. rewrite Hswitch; cbn.
  split_and!; try done.
  - intros Hne. apply String.eqb_neq in Hne.
    unfold DynamicScene_create, preload_guard; cbn. rewrite Hne, H1, H2.
    eexists. split; [done|].
    unfold renderDefaultScene.
    case_bool_decide; (split; [reflexivity|set_solver]).
  - intros ->. reflexivity.
  - intros key type p. by apply (no_prompt_calls DynamicPreload).
Qed.

Lemma unknown_scene_recovers_witness :
  navigate_switch "secret_level" = (KDynamicScene, false).
Proof.
  destruct (unknown_scene_recovers
              (scene_init "challenge_a" (Some knight_game)) knight_game
              "secret_level" ∅ eq_refl) as (st & _ & Hswitch & _).
  - unfold scene_ids. set_solver.
  - exact Hswitch.
Defined.

Section Converted.
Variable data : GameData.
Variable prompt : string.
Variable textures : gset string.

(** X7: for a converted game [DynamicScene], which draws from the
    preserved game data and never reads the scene records, shows what the
    records say: on the avatar screen the title and description of the
    avatar record and one button to its [next_scene]; on the dialogue
    screen the title and dialogue text of the dialogue record, one button
    per option with the option's text and target, and the name of the
    record's NPC beside the portrait. It draws an image only for a texture
    that exists. *)
Theorem DynamicScene_shows_records :
  let g := convertToSceneStructure data prompt in
  (∃ ws a,
     DynamicScene_create textures (scene_init "avatar_creation" (Some g))
     = Painted ws
     ∧ scenes (scene_dsl g) !! "avatar_creation" = Some (SAvatar a)
     ∧ WText (av_title a) ∈ ws
     ∧ WText (av_description a) ∈ ws
     ∧ widget_targets ws = [av_next_scene a]
     ∧ ∀ t, WImage t ∈ ws → t ∈ textures)
  ∧ (∃ ws d,
       DynamicScene_create textures (scene_init "quest_start" (Some g))
       = Painted ws
       ∧ scenes (scene_dsl g) !! "quest_start" = Some (SDialogue d)
       ∧ WText (dl_title d) ∈ ws
       ∧ WText (dialogue_text d) ∈ ws
       ∧ widget_buttons ws
         = (λ o, (opt_text o, opt_next_scene o)) <$> options d
       ∧ ("npc" ∈ textures →
          ∃ n, dl_npc d = Some n ∧ WText (npcl_name n) ∈ ws)
       ∧ ∀ t, WImage t ∈ ws → t ∈ textures).
Proof.
  intros g. split.
  - eexists _, _. split; [reflexivity|]. split; [reflexivity|].
    unfold renderAvatarScene, createContinueButton; cbn.
    destruct (decide ("background" ∈ textures)) as [Hb|Hb];
      destruct (decide ("avatar" ∈ textures)) as [Ha|Ha];
      rewrite ?(bool_decide_eq_true_2 _ Hb), ?(bool_decide_eq_false_2 _ Hb),
        ?(bool_decide_eq_true_2 _ Ha), ?(bool_decide_eq_false_2 _ Ha);
      cbn; split_and!; try reflexivity; set_solver.
  - eexists _, _. split; [reflexivity|]. split; [reflexivity|].
    unfold renderDialogueScene, createChoiceButton; cbn.
    destruct (decide ("background" ∈ textures)) as [Hb|Hb];
      destruct (decide ("npc" ∈ textures)) as [Hn|Hn];
      rewrite ?(bool_decide_eq_true_2 _ Hb), ?(bool_decide_eq_false_2 _ Hb),
        ?(bool_decide_eq_true_2 _ Hn), ?(bool_decide_eq_false_2 _ Hn);
      cbn;
      (split_and!;
       [set_solver|set_solver|reflexivity
       |intros Hin; first [done|eexists; split; [reflexivity|set_solver]]
       |set_solver]).
Qed.
End Converted.

(** X8: [ObstacleRunScene] shows a screen exactly when its scene id names
    an obstacle-run record of the game. It then shows the title and the
    description of that record, and its Success and Failure buttons lead to
    the record's [success_scene] and [failure_scene]; it draws an image
    only for a texture that exists. Otherwise it queues nothing and goes
    back to the title scene. *)
Theorem ObstacleRunScene_create_by_record (textures : gset string)
    (g : LegacyGameResponse) (sceneId : string) :
  sceneId ≠ "" →
  let this := scene_init sceneId (Some g) in
  match obstacle_run_record g sceneId with
  | Some scene =>
      ∃ ws,
        ObstacleRunScene_create textures this = Painted ws
        ∧ WText (ob_title scene) ∈ ws
        ∧ WText (ob_description scene) ∈ ws
        ∧ widget_buttons ws
          = [("Success", success_scene scene); ("Failure", failure_scene scene)]
        ∧ ∀ t, WImage t ∈ ws → t ∈ textures
  | None =>
      ObstacleRunScene_create textures this = Redirected KTitleScene
      ∧ preload_calls ObstacleRunPreload this = []
  end.
Proof.
  intros Hid this. apply String.eqb_neq in Hid.
  unfold ObstacleRunScene_create, ObstacleRunScene_targets, preload_calls,
    ObstacleRunScene_preload_calls, preload_guard. cbn. rewrite Hid.
  destruct (obstacle_run_record g sceneId) as [scene|]; [|done].
  eexists. split; [reflexivity|].
  destruct (decide ("bg_" +:+ sceneId ∈ textures)) as [Hb|Hb];
    destruct (decide ("obstacle_" +:+ sceneId ∈ textures)) as [Ho|Ho];
    rewrite ?(bool_decide_eq_true_2 _ Hb), ?(bool_decide_eq_false_2 _ Hb),
      ?(bool_decide_eq_true_2 _ Ho), ?(bool_decide_eq_false_2 _ Ho);
    cbn; (split_and!; [set_solver|set_solver|reflexivity|set_solver]).
Qed.

Lemma ObstacleRunScene_create_by_record_witness :
  ObstacleRunScene_create ∅ (scene_init "quest_start" (Some knight_game))
  = Redirected KTitleScene.
Proof.
  apply (ObstacleRunScene_create_by_record ∅ knight_game "quest_start").
  discriminate.
Defined.

Section Fallback.
Variable encodeURIComponent : string → result JSError string.

(** X9: for a converted game without an [images] record, each of the two
    challenge scenes still gets its two images: after its preload,
    [loadAll] asks the Phaser loader for exactly [bg_<id>] and
    [obstacle_<id>], each under the placeholder URL generated from the
    record's prompt, or under the fallback URL of its key when generating
    throws. *)
Theorem ObstacleRunScene_fallback_loads (data : GameData) (prompt : string)
    (sceneId : string) :
  images data = None →
  sceneId ∈ ["challenge_a"; "challenge_b"] →
  let g := convertToSceneStructure data prompt in
  let generated key p :=
    match encodeURIComponent p with
    | Ok encoded => "https://via.placeholder.com/400x400?text=" +:+ encoded
    | Throw _ =>
        "https://via.placeholder.com/400x400?text=Failed+to+generate+" +:+ key
    end in
  ∃ scene loader this' requests,
    obstacle_run_record g sceneId = Some scene
    ∧ assetLoader (preload ObstacleRunPreload (scene_init sceneId (Some g)))
      = Some loader
    ∧ loadAll encodeURIComponent loader = Ok (this', requests)
    ∧ LoadImage ("bg_" +:+ sceneId)
        (generated ("bg_" +:+ sceneId) (ob_background_prompt scene)) ∈ requests
    ∧ LoadImage ("obstacle_" +:+ sceneId)
        (generated ("obstacle_" +:+ sceneId) (obstacle_prompt scene)) ∈ requests
    ∧ ∀ r, r ∈ requests →
        request_key r ∈ ["bg_" +:+ sceneId; "obstacle_" +:+ sceneId].
Proof.
  intros Himages Hid g generated. subst g generated.
  set (g := convertToSceneStructure data prompt).
  assert (Hscene : ∃ scene,
    obstacle_run_record g sceneId = Some scene
    ∧ ob_background_prompt scene ≠ "" ∧ obstacle_prompt scene ≠ ""
    ∧ "bg_" +:+ sceneId ≠ "obstacle_" +:+ sceneId).
  { apply elem_of_cons in Hid as [->|Hid];
      [|apply list_elem_of_singleton in Hid as ->];
      eexists; (split; [reflexivity|]); cbn;
      (split_and!; [| |discriminate]);
      repeat apply append_nonempty; discriminate. }
  destruct Hscene as (scene & Hscene & Hp1 & Hp2 & Hkeys).
  set (bg := "bg_" +:+ sceneId) in *.
  set (obstacle := "obstacle_" +:+ sceneId) in *.
  set (loader := queueAsset obstacle IMAGE (obstacle_prompt scene) None
                   (queueAsset bg IMAGE (ob_background_prompt scene) None
                               new_AssetLoader)).
  assert (Hpre : assetLoader (preload ObstacleRunPreload
                                (scene_init sceneId (Some g))) = Some loader).
  { unfold preload, preload_calls, ObstacleRunScene_preload_calls,
      preload_guard, preserved_images. subst g. cbn.
    assert (String.eqb sceneId "" = false) as ->.
    { apply String.eqb_neq. intros ->. set_solver. }
    rewrite Hscene. cbn. by rewrite Himages. }
  assert (Hbg : assets loader !! bg
                = Some {| asset_key := bg; asset_type := IMAGE;
                          asset_url := None;
                          asset_prompt := Some (ob_background_prompt scene);
                          asset_frameConfig := None; asset_loaded := false |}).
  { subst loader. cbn. rewrite lookup_insert_ne by done.
    apply lookup_insert_eq. }
  assert (Hob : assets loader !! obstacle
                = Some {| asset_key := obstacle; asset_type := IMAGE;
                          asset_url := None;
                          asset_prompt := Some (obstacle_prompt scene);
                          asset_frameConfig := None; asset_loaded := false |}).
  { subst loader. cbn. apply lookup_insert_eq. }
  destruct (loadAll_requests_complete encodeURIComponent loader bg _ Hbg
              eq_refl eq_refl)
    as (this' & requests & Hload & _ & Hreq1 & _).
  destruct (loadAll_requests_complete encodeURIComponent loader obstacle _ Hob
              eq_refl eq_refl)
    as (this'' & requests' & Hload' & _ & Hreq2 & _).
  rewrite Hload in Hload'. injection Hload' as <- <-.
  exists scene, loader, this', requests.
  split_and!; [done|done|done| | |].
  - apply (Hreq1 (ob_background_prompt scene)); done.
  - apply (Hreq2 (obstacle_prompt scene)); done.
  - intros r Hr.
    destruct (loadAll_requests_sound encodeURIComponent loader)
      as (this'' & requests' & Hload' & _ & _ & Hsound).
    rewrite Hload in Hload'. injection Hload' as <- <-.
    destruct (Hsound r Hr) as (asset & Ha & _).
    subst loader. cbn in Ha.
    rewrite !elem_of_cons.
    apply lookup_insert_Some in Ha as [[Heq _]|[_ Ha]]; [by right; left|].
    apply lookup_insert_Some in Ha as [[Heq _]|[_ Ha]]; [by left|].
    by rewrite lookup_empty in Ha.
Qed.
End Fallback.

Lemma ObstacleRunScene_fallback_loads_witness :
  ∃ scene loader this' requests,
    obstacle_run_record
      (convertToSceneStructure (knight_story None) knight_prompt) "challenge_b"
    = Some scene
    ∧ assetLoader
        (preload ObstacleRunPreload
           (scene_init "challenge_b"
              (Some (convertToSceneStructure (knight_story None) knight_prompt))))
      = Some loader
    ∧ loadAll encode_failing loader = Ok (this', requests)
    ∧ LoadImage "bg_challenge_b"
        "https://via.placeholder.com/400x400?text=Failed+to+generate+bg_challenge_b"
        ∈ requests.
Proof.
  destruct (ObstacleRunScene_fallback_loads encode_failing (knight_story None)
              knight_prompt "challenge_b" eq_refl)
    as (scene & loader & this' & requests & Hs & Hl & Hload & Hbg & _).
  - set_solver.
  - exists scene, loader, this', requests. split_and!; [done|done|done|].
    exact Hbg.
Defined.

(** ** The conclusion screen, whatever the id *)

Lemma renderConclusionScene_images textures g sceneId t :
  DrawImage t ∈ renderConclusionScene textures g sceneId → t ∈ textures.
Proof.
  unfold renderConclusionScene, createRestartButton.
  destruct (decide ("background" ∈ textures)) as [Hb|Hb];
    destruct (decide ("avatar" ∈ textures)) as [Ha|Ha];
    rewrite ?(bool_decide_eq_true_2 _ Hb), ?(bool_decide_eq_false_2 _ Hb),
      ?(bool_decide_eq_true_2 _ Ha), ?(bool_decide_eq_false_2 _ Ha);
    destruct (String.eqb sceneId "good_ending"), (game_data g); cbn;
    rewrite ?elem_of_cons, ?elem_of_nil; naive_solver.
Qed.

(** X10: the conclusion screen tells victory from defeat by the scene id
    alone: under every id other than [good_ending] it is the defeat screen,
    with the bad ending's text when game data is preserved. For a converted
    game this agrees with the records: the [is_good_ending] flag of a
    conclusion record says whether its key is [good_ending], and the screen
    of that key shows the record's title and conclusion text. Every
    conclusion screen ends with the Play Again button and draws an image
    only for a texture that exists. *)
Theorem renderConclusionScene_by_id (textures : gset string)
    (g : LegacyGameResponse) (sceneId : string) :
  let screen := renderConclusionScene textures g sceneId in
  (∃ front, screen = front ++ createRestartButton)
  ∧ (∀ t, DrawImage t ∈ screen → t ∈ textures)
  ∧ (sceneId ≠ "good_ending" →
     DrawText "Defeat" ∈ screen
     ∧ ¬ (DrawImage "avatar" ∈ screen)
     ∧ ∀ d, game_data g = Some d →
         DrawText (climax d +:+ LF +:+ LF +:+ ending_bad d) ∈ screen)
  ∧ (∀ data prompt c,
       g = convertToSceneStructure data prompt →
       scenes (scene_dsl g) !! sceneId = Some (SConclusion c) →
       is_good_ending c = String.eqb sceneId "good_ending"
       ∧ DrawText (cn_title c) ∈ screen
       ∧ DrawText (conclusion_text c) ∈ screen).
Proof.
  intros screen. split_and!.
  - subst screen. unfold renderConclusionScene.
    eexists. rewrite !app_assoc. reflexivity.
  - intros t. apply renderConclusionScene_images.
  - intros Hid. split_and!.
    + subst screen. unfold renderConclusionScene.
      apply String.eqb_neq in Hid. rewrite Hid.
      rewrite !elem_of_app. right. left. by apply list_elem_of_singleton.
    + intros [? _]%renderConclusionScene_avatar. done.
    + intros d Hd.
      pose proof (renderConclusionScene_text textures g d sceneId Hd) as Ht.
      apply String.eqb_neq in Hid. by rewrite Hid in Ht.
  - intros data prompt c -> Hc. subst screen.
    apply convert_lookup_inv in Hc
      as [[_ [=]]|[[_ [=]]|[[_ [=]]|[[_ [=]]|[[-> [= ->]]|[-> [= ->]]]]]]].
    + split_and!; [reflexivity| |].
      * unfold renderConclusionScene.
        rewrite !elem_of_app. right. left. by apply list_elem_of_singleton.
      * by apply (renderConclusionScene_text textures _ data "good_ending").
    + split_and!; [reflexivity| |].
      * unfold renderConclusionScene.
        rewrite !elem_of_app. right. left. by apply list_elem_of_singleton.
      * by apply (renderConclusionScene_text textures _ data "bad_ending").
Qed.

Lemma renderConclusionScene_by_id_witness :
  DrawText "Defeat" ∈ renderConclusionScene ∅ knight_game "challenge_a".
Proof.
  apply (renderConclusionScene_by_id ∅ knight_game "challenge_a").
  discriminate.
Defined.

(** ** Generation that succeeds, and answers that cannot be converted *)

(** X11: when the backend answers with game data, [startGameGeneration]
    stores the converted game under [gameData], schedules [BootScene] with
    the same game and leaves the progress bar at 90; the error message and
    the visibility of the page's panels are not touched. The game carries
    the prompt the backend echoed. What was stored reads back as the same
    game, both in [TitleScene.init] and in [BootScene.init] called without
    data. *)
Theorem startGameGeneration_stores_and_schedules
    (axios_post : string → result JSError AxiosResponse) (userPrompt : string)
    (response : AxiosResponse) (d : GameData) (app : App) :
  axios_post userPrompt = Ok response →
  data_game_data response = Some d →
  let game := convertToSceneStructure d (data_prompt response) in
  let app' := startGameGeneration axios_post userPrompt app in
  generateGame axios_post userPrompt = Ok game
  ∧ localStorage app'
    = <["gameData" := JSON_stringify game]> (localStorage app)
  ∧ scheduled_boot app' = Some game
  ∧ progress_bar_width (document app') = 90%Z
  ∧ error_message_textContent (document app')
    = error_message_textContent (document app)
  ∧ error_message_display (document app')
    = error_message_display (document app)
  ∧ loading_screen_display (document app')
    = loading_screen_display (document app)
  ∧ prompt_container_display (document app')
    = prompt_container_display (document app)
  ∧ running app' = running app
  ∧ TitleScene_gameData app' = TitleScene_gameData app
  ∧ prompt game = data_prompt response
  ∧ TitleScene_gameData (TitleScene_init None app') = Typed (Some game)
  ∧ ∀ held, BootScene_init None held (localStorage app')
            = (Typed (Some game), localStorage app').
Proof.
  intros Hpost Hdata game app'.
  assert (Hgen : generateGame axios_post userPrompt = Ok game).
  { unfold generateGame, try_catch. rewrite Hpost. cbn. by rewrite Hdata. }
  assert (Hstore : localStorage app'
                   = <["gameData" := JSON_stringify game]> (localStorage app)).
  { subst app'. unfold startGameGeneration. by rewrite Hgen. }
  split_and!; try done.
  - subst app'. unfold startGameGeneration. by rewrite Hgen.
  - subst app'. unfold startGameGeneration. by rewrite Hgen.
  - subst app'. unfold startGameGeneration. by rewrite Hgen.
  - subst app'. unfold startGameGeneration. by rewrite Hgen.
  - subst app'. unfold startGameGeneration. by rewrite Hgen.
  - subst app'. unfold startGameGeneration. by rewrite Hgen.
  - subst app'. unfold startGameGeneration. by rewrite Hgen.
  - subst app'. unfold startGameGeneration. by rewrite Hgen.
  - unfold TitleScene_init. rewrite Hstore, lookup_insert_eq. reflexivity.
  - intros held. unfold BootScene_init.
    rewrite Hstore at 1. rewrite lookup_insert_eq. reflexivity.
Qed.

Lemma startGameGeneration_stores_and_schedules_witness :
  scheduled_boot (startGameGeneration echoing_backend knight_prompt waiting_page)
  = Some knight_game.
Proof.
  apply (startGameGeneration_stores_and_schedules echoing_backend knight_prompt
           {| data_game_data := Some (knight_story (Some knight_images));
              data_prompt := knight_prompt |}
           (knight_story (Some knight_images)) waiting_page);
    reflexivity.
Defined.

(** X12: an answer without [game_data] is treated like a network failure:
    [generateGame] rejects with the generic message, and the page shows it
    with the prompt form back and the loading screen hidden; nothing is
    stored or scheduled. The progress bar keeps the 10 it was given before
    the request. *)
Theorem malformed_response_is_failure
    (axios_post : string → result JSError AxiosResponse) (prompt : string)
    (response : AxiosResponse) (app : App) :
  axios_post prompt = Ok response →
  data_game_data response = None →
  let app' := startGameGeneration axios_post prompt app in
  generateGame axios_post prompt = Throw (Error GENERATION_FAILED)
  ∧ document app'
    = {| prompt_container_display := "flex";
         loading_screen_display := "none";
         error_message_textContent := GENERATION_FAILED;
         error_message_display := "block";
         progress_bar_width := 10%Z |}
  ∧ localStorage app' = localStorage app
  ∧ scheduled_boot app' = scheduled_boot app
  ∧ TitleScene_gameData app' = TitleScene_gameData app.
Proof.
  intros Hpost Hdata app'.
  assert (Hgen : generateGame axios_post prompt
                 = Throw (Error GENERATION_FAILED)).
  { unfold generateGame, try_catch. rewrite Hpost. cbn. by rewrite Hdata. }
  subst app'. unfold startGameGeneration. rewrite Hgen.
  split_and!; done.
Qed.

Lemma malformed_response_is_failure_witness :
  localStorage (startGameGeneration hollow_backend knight_prompt waiting_page)
  = localStorage waiting_page.
Proof.
  apply (malformed_response_is_failure hollow_backend knight_prompt
           {| data_game_data := None; data_prompt := knight_prompt |}
           waiting_page); reflexivity.
Defined.

(** ** The title screen and the two [init]s *)

Lemma or_default_nonempty a b : b ≠ "" → or_default a b ≠ "".
Proof.
  intros Hb. destruct a as [s|]; [|done]. cbn.
  destruct (String.eqb s "") eqn:E; [done|]. cbn.
  by apply String.eqb_neq.
Qed.

Lemma or_default_Some s b : s ≠ "" → or_default (Some s) b = s.
Proof. intros Hs. cbn. apply String.eqb_neq in Hs. by rewrite Hs. Qed.

(** X13: the title screen never shows an empty text. Without a game it
    shows the two stock lines. For a converted game it shows the title and
    description built by the conversion, never the stock lines, whatever
    the story fields hold, and the line quoting the prompt exactly when the
    prompt is not empty. After [restartGame] the title scene holds no game,
    so the stock lines are what it would show. *)
Theorem TitleScene_texts_shown :
  TitleScene_texts None = ["AI LoreCrafter"; "An AI-generated RPG adventure"]
  ∧ (∀ held t, t ∈ TitleScene_texts held → t ≠ "")
  ∧ (∀ d p,
       TitleScene_texts (Some (convertToSceneStructure d p))
       = [protagonist_role d +:+ " of " +:+ setting d;
          objective d +:+ " - " +:+ hook d]
         ++ (if String.eqb p "" then []
             else ["Based on: " +:+ DQ +:+ p +:+ DQ]))
  ∧ (∀ app,
       ∃ held,
         TitleScene_gameData (restartGame app) = Typed held
         ∧ TitleScene_texts held
           = ["AI LoreCrafter"; "An AI-generated RPG adventure"]).
Proof.
  split_and!.
  - reflexivity.
  - intros held t. unfold TitleScene_texts.
    rewrite elem_of_app, !elem_of_cons, elem_of_nil.
    intros [[->|[->|[]]]|Hin].
    + by apply or_default_nonempty.
    + by apply or_default_nonempty.
    + destruct held as [g|]; [|by apply elem_of_nil in Hin].
      destruct (truthy (Some (prompt g))); [|by apply elem_of_nil in Hin].
      apply list_elem_of_singleton in Hin as ->. discriminate.
  - intros d p. unfold TitleScene_texts.
    change (game_title ∘ scene_dsl <$> Some (convertToSceneStructure d p))
      with (Some (protagonist_role d +:+ " of " +:+ setting d)).
    change (game_description ∘ scene_dsl
              <$> Some (convertToSceneStructure d p))
      with (Some (objective d +:+ " - " +:+ hook d)).
    rewrite !or_default_Some by (by apply append_nonempty).
    cbn. by destruct (String.eqb p "").
  - intros app. by exists None.
Qed.

(** X14: [BootScene.init] and [TitleScene.init] resolve the [gameData]
    field in the same way: the data passed in; else, when the stored text
    is not empty and [JSON.parse] accepts it, the value it denotes; else
    what the scene already held. So a held game survives an [init] without
    data when nothing is stored or the stored text does not parse, and it
    is replaced by any stored text that parses: the text [null] leaves the
    scene without a game, any other foreign JSON text leaves its value in
    the field. The title scene never writes the storage; the boot scene
    writes only the [gameData] key and removes none, and what it writes
    reads back as the game it was given. *)
Theorem BootScene_init_agrees_with_TitleScene_init
    (data : option LegacyGameResponse) (app : App) :
  let held := TitleScene_gameData app in
  let stored := localStorage app !! "gameData" in
  let booted := BootScene_init data held (localStorage app) in
  let titled := TitleScene_init data app in
  TitleScene_gameData titled = booted.1
  ∧ localStorage titled = localStorage app
  ∧ (∀ g, data = Some g → booted.1 = Typed (Some g))
  ∧ (data = None → stored = None → booted = (held, localStorage app))
  ∧ (∀ empty, data = None → stored = Some (NotJSON empty) →
       booted = (held, localStorage app))
  ∧ (∀ g, data = None → stored = Some (JSON_stringify g) →
       booted.1 = Typed (Some g))
  ∧ (data = None → stored = Some (OtherJSON JSON_null) →
     booted.1 = Typed None)
  ∧ (∀ value, data = None → value ≠ JSON_null →
       stored = Some (OtherJSON value) → booted.1 = Foreign value)
  ∧ (booted.1 ≠ held →
     is_Some data
     ∨ ∃ item parsed,
         stored = Some item ∧ stored_truthy item = true
         ∧ JSON_parse item = Ok parsed ∧ booted.1 = parsed)
  ∧ (∀ key, key ≠ "gameData" → booted.2 !! key = localStorage app !! key)
  ∧ dom (localStorage app) ⊆ dom booted.2
  ∧ (∀ g held', data = Some g →
       BootScene_init None held' booted.2 = (Typed (Some g), booted.2)).
Proof.
  intros held stored booted titled. subst held stored booted titled.
  unfold BootScene_init, TitleScene_init, JSON_stringify.
  destruct data as [g|].
  - cbn. split_and!; try done; try (by intros; simplify_eq).
    + intros _. left. by eexists.
    + intros key Hkey. by rewrite lookup_insert_ne.
    + rewrite dom_insert. set_solver.
    + intros g' held' [= <-]. by rewrite lookup_insert_eq.
  - destruct (localStorage app !! "gameData") as [[g|value|empty]|]
      eqn:Hstored; cbn.
    + split_and!; try done; try (by intros; simplify_eq).
      intros _. right. by eexists _, _.
    + destruct value; cbn;
        (split_and!; try done; try (by intros; simplify_eq));
        intros _; right; by eexists _, _.
    + destruct empty; cbn; split_and!; try done; by intros; simplify_eq.
    + split_and!; try done; by intros; simplify_eq.
Qed.

(** ** The boot scene *)

(** X15: the width [updateLoadingProgress] writes is a percentage: it lies
    between 0 and 100 for every progress value, equals the value inside
    that range, sticks at the nearer bound outside it, and clamping twice
    changes nothing. It grows with the progress. The loader's [progress]
    event, which reports a fraction between 0 and 1, is shown as that
    fraction times 100. *)
Theorem updateLoadingProgress_clamps (progress : Q) :
  let width := updateLoadingProgress progress in
  (0 <= width)%Q ∧ (width <= 100)%Q
  ∧ ((0 <= progress)%Q → (progress <= 100)%Q → (width == progress)%Q)
  ∧ ((progress <= 0)%Q → (width == 0)%Q)
  ∧ ((100 <= progress)%Q → (width == 100)%Q)
  ∧ (updateLoadingProgress width == width)%Q
  ∧ (∀ later, (progress <= later)%Q →
       (width <= updateLoadingProgress later)%Q)
  ∧ (∀ value, (0 <= value)%Q → (value <= 1)%Q →
       (on_load_progress value == value * 100)%Q).
Proof.
  assert (Hclamp : ∀ q, (0 <= updateLoadingProgress q)%Q
                        ∧ (updateLoadingProgress q <= 100)%Q).
  { intros q. unfold updateLoadingProgress. split.
    - apply Q.min_glb; [done|]. apply Q.le_max_l.
    - apply Q.le_min_l. }
  assert (Hin : ∀ q, (0 <= q)%Q → (q <= 100)%Q
                     → (updateLoadingProgress q == q)%Q).
  { intros q H0 H100. unfold updateLoadingProgress.
    rewrite (Q.max_r 0 q H0). by apply Q.min_r. }
  intros width. subst width. split_and!.
  - apply Hclamp.
  - apply Hclamp.
  - apply Hin.
  - intros H0. unfold updateLoadingProgress.
    rewrite (Q.max_l 0 progress H0). by apply Q.min_r.
  - intros H100. unfold updateLoadingProgress.
    apply Q.min_l. apply (Qle_trans _ progress); [exact H100|].
    apply Q.le_max_r.
  - apply Hin; apply Hclamp.
  - intros later Hle. unfold updateLoadingProgress.
    apply Q.min_le_compat_l. by apply Q.max_le_compat_l.
  - intros value H0 H1. unfold on_load_progress. apply Hin.
    + apply Qmult_le_0_compat; [exact H0|done].
    + apply (Qle_trans _ (1 * 100)%Q); [|done].
      apply Qmult_le_compat_r; [exact H1|done].
Qed.

(** X16: with a game response at hand and the loader [init] created,
    [BootScene.create] ends in the title scene with that game, never in the
    error screen, and the files it asks the Phaser loader for are exactly
    the avatar, background and NPC images whose URL in the preserved
    [images] record is present and not empty, each under its fixed key and
    with that URL; a game without the record loads nothing. *)
Theorem BootScene_create_hands_over
    (encodeURIComponent : string → result JSError string)
    (this : SceneFields) (g : LegacyGameResponse) :
  gameData this = Some g →
  assetLoader this = Some new_AssetLoader →
  ∃ requests,
    BootScene_create encodeURIComponent this = TitleWith (Some g) requests
    ∧ (preserved_images g = None → requests = [])
    ∧ ∀ r, r ∈ requests ↔
        ∃ images key url,
          r = LoadImage key url
          ∧ preserved_images g = Some images
          ∧ (key, Some url) ∈ [("avatar", img_avatar images);
                               ("background", img_background images);
                               ("npc", img_npc images)]
          ∧ url ≠ "".
Proof.
  intros Hgame Hloader.
  unfold BootScene_create, BootScene_queueAssetsForScene_calls.
  rewrite Hgame, Hloader. cbn. unfold preserved_images.
  destruct (game_data g) as [d|]; cbn.
  2:{ eexists. split; [vm_compute; reflexivity|split; [done|]]. intros r. split.
      - intros []%elem_of_nil.
      - intros (? & ? & ? & _ & [=] & _). }
  destruct (images d) as [[a b n]|]; cbn.
  2:{ eexists. split; [vm_compute; reflexivity|split; [done|]]. intros r. split.
      - intros []%elem_of_nil.
      - intros (? & ? & ? & _ & [=] & _). }
  destruct a as [[|a0 a]|], b as [[|b0 b]|], n as [[|n0 n]|];
    (eexists; split; [vm_compute; reflexivity|split; [done|]]);
    intros r; rewrite ?elem_of_cons, ?elem_of_nil; (split;
      [ intros H;
        repeat (destruct H as [->|H];
                [ eexists _, _, _; split; [reflexivity|];
                  split; [reflexivity|];
                  rewrite ?elem_of_cons; cbn;
                  (split; [|discriminate]);
                  ((by left) || (by right; left) || (by right; right; left))
                |]);
        destruct H
      | intros (images0 & key & url & -> & [= <-] & Hin & Hurl);
        rewrite ?elem_of_cons, ?elem_of_nil in Hin; cbn in Hin;
        destruct_or!; simplify_eq; auto ]).
Qed.

Lemma BootScene_create_hands_over_witness :
  ∃ requests,
    BootScene_create encode_unreserved (scene_init "" (Some knight_game))
    = TitleWith (Some knight_game) requests.
Proof.
  destruct (BootScene_create_hands_over encode_unreserved
              (scene_init "" (Some knight_game)) knight_game
              eq_refl eq_refl) as (requests & Hcreate & _).
  by exists requests.
Defined.

(** ** The dialogue box *)

Section DialogueBox.
Context {Reply : Type}.
Variable text_height : string → Z.
Variable config : DialogueUIConfig.

Lemma created_by_snoc (ops : list (UIOperation Reply)) op :
  created_by (ops ++ [op])
  = (created_by ops + match op with
                      | OpShow d _ => length (options d)
                      | _ => 0
                      end)%nat.
Proof.
  unfold created_by. induction ops as [|o ops IH]; cbn in *; [lia|].
  rewrite IH. lia.
Qed.

Local Ltac ui_leaf :=
  first [ done
        | by left
        | by right; eexists
        | by rewrite ?length_imap, ?length_app; cbn; lia
        | by intros ?%elem_of_nil
        | by intros [? [=]]
        | rewrite ?elem_of_nil; naive_solver ].

(** What holds of a dialogue box after any sequence of its public
    operations. *)
Lemma DialogueUI_inv (ops : list (UIOperation Reply)) :
  let ui := foldl (run_operation text_height) (new_DialogueUI config) ops in
  ui_config ui = config
  ∧ (ui_visible ui = true ↔ is_Some (ui_currentDialogue ui))
  ∧ (is_Some (ui_onOptionSelected ui) ↔ is_Some (ui_currentDialogue ui))
  ∧ (∀ d, ui_currentDialogue ui = Some d →
          ui_dialogueText ui = dialogue_text d)
  ∧ (ui_options ui = []
     ∨ ∃ d, ui_currentDialogue ui = Some d
            ∧ ui_options ui
              = imap (λ index opt,
                        createOption opt (cfg_padding config * 2)%Z
                          (cfg_padding config + text_height (dialogue_text d)
                           + cfg_padding config + Z.of_nat index * 40)%Z)
                     (options d))
  ∧ (length (ui_options ui) + length (ui_destroyed ui))%nat = created_by ops
  ∧ (ui_container_destroyed ui = true ↔ OpDestroy ∈ ops).
Proof.
  induction ops as [|op ops IH] using rev_ind.
  - cbn. split_and!; ui_leaf.
  - rewrite foldl_app. cbn.
    destruct IH as (Hcfg & Hvis & Hcb & Htext & Hopts & Hlen & Hdestroyed).
    rewrite created_by_snoc, elem_of_app, list_elem_of_singleton.
    destruct op as [d callback| |]; cbn; rewrite ?Hcfg; split_and!; ui_leaf.
Qed.

(** X17: after any sequence of [showDialogue], [hideDialogue] and
    [destroy] on a new dialogue box, the box is visible exactly when it has
    a current dialogue, and has a selection callback exactly then; the text
    is that of the current dialogue; every option on screen is the option of
    the current dialogue at the same position, standing at twice the
    padding from the left and 40 below its predecessor, the first one a
    padding below the text; and every option container ever created is
    either on screen or has been destroyed. The configuration is the one
    the box was built with. *)
Theorem DialogueUI_tracks_current (ops : list (UIOperation Reply)) :
  let ui := foldl (run_operation text_height) (new_DialogueUI config) ops in
  ui_config ui = config
  ∧ (ui_visible ui = true ↔ is_Some (getCurrentDialogue ui))
  ∧ (is_Some (ui_onOptionSelected ui) ↔ is_Some (getCurrentDialogue ui))
  ∧ (∀ d, getCurrentDialogue ui = Some d →
          ui_dialogueText ui = dialogue_text d)
  ∧ (∀ index container,
       ui_options ui !! index = Some container →
       ∃ d, getCurrentDialogue ui = Some d
            ∧ options d !! index = Some (oc_option container)
            ∧ length (ui_options ui) = length (options d)
            ∧ oc_x container = (cfg_padding config * 2)%Z
            ∧ oc_y container
              = (cfg_padding config + text_height (dialogue_text d)
                 + cfg_padding config + Z.of_nat index * 40)%Z)
  ∧ (length (ui_options ui) + length (ui_destroyed ui))%nat = created_by ops
  ∧ (ui_container_destroyed ui = true ↔ OpDestroy ∈ ops).
Proof.
  intros ui.
  destruct (DialogueUI_inv ops)
    as (Hcfg & Hvis & Hcb & Htext & Hopts & Hlen & Hdestroyed).
  fold ui in Hcfg, Hvis, Hcb, Htext, Hopts, Hlen, Hdestroyed.
  unfold getCurrentDialogue. split_and!; try done.
  intros index container Hlookup.
  destruct Hopts as [Hnil|(d & Hd & Himap)].
  - by rewrite Hnil in Hlookup.
  - exists d. rewrite Himap, list_lookup_imap in Hlookup.
    destruct (options d !! index) as [opt|] eqn:Hopt; [|done].
    injection Hlookup as <-. cbn.
    split_and!; try done. by rewrite Himap, length_imap.
Qed.

(** X18: a click on an option on screen calls the callback of the current
    dialogue with that dialogue's option at the clicked position, and
    nothing else is ever passed to a callback. Right after [showDialogue]
    the click on position [index] yields the new callback applied to the
    new dialogue's option there; after [hideDialogue] or [destroy] no
    option is left to click. *)
Theorem click_option_fires_current (ops : list (UIOperation Reply)) :
  let ui := foldl (run_operation text_height) (new_DialogueUI config) ops in
  (∀ index reply,
     click_option index ui = Some reply →
     ∃ d callback opt,
       getCurrentDialogue ui = Some d
       ∧ ui_onOptionSelected ui = Some callback
       ∧ options d !! index = Some opt
       ∧ reply = callback opt)
  ∧ (∀ this d (callback : DialogueOption → Reply) index,
       click_option index (showDialogue text_height d callback this)
       = callback <$> options d !! index)
  ∧ (∀ (this : DialogueUI Reply) index,
       click_option index (hideDialogue this) = None)
  ∧ (∀ (this : DialogueUI Reply) index,
       click_option index (destroy_ui this) = None).
Proof.
  intros ui. split_and!.
  - intros index reply Hclick.
    destruct (DialogueUI_inv ops) as (_ & _ & _ & _ & Hopts & _).
    fold ui in Hopts. unfold click_option in Hclick.
    destruct (ui_options ui !! index) as [container|] eqn:Hlookup; [|done].
    destruct (ui_onOptionSelected ui) as [callback|] eqn:Hcallback; [|done].
    cbn in Hclick. injection Hclick as <-.
    destruct Hopts as [Hnil|(d & Hd & Himap)].
    + by rewrite Hnil in Hlookup.
    + exists d, callback, (oc_option container).
      split_and!; try done.
      rewrite Himap, list_lookup_imap in Hlookup.
      destruct (options d !! index) as [opt|]; [|done].
      by injection Hlookup as <-.
  - intros this d callback index. unfold click_option. cbn.
    rewrite list_lookup_imap. by destruct (options d !! index).
  - done.
  - done.
Qed.
End DialogueBox.

(** X19: with [DynamicScene.handleDialogueOption] as the callback of a
    dialogue box showing the dialogue record of a converted game, a click
    on the first option starts [ObstacleRunScene] on [challenge_a], a click
    on the second starts it on [challenge_b], both with the game the scene
    holds, and there is no third option to click. A scene that holds no
    game starts nothing, whatever the option. *)
Theorem handleDialogueOption_follows_options (text_height : string → Z)
    (data : GameData) (prompt sceneId : string)
    (ui : DialogueUI (option SceneStart)) :
  let g := convertToSceneStructure data prompt in
  let this := scene_init sceneId (Some g) in
  let shown :=
    showDialogue text_height (questScene data) (handleDialogueOption this) ui in
  scenes (scene_dsl g) !! "quest_start" = Some (SDialogue (questScene data))
  ∧ click_option 0 shown
    = Some (Some {| start_key := KObstacleRunScene;
                    start_sceneId := "challenge_a";
                    start_gameData := g |})
  ∧ click_option 1 shown
    = Some (Some {| start_key := KObstacleRunScene;
                    start_sceneId := "challenge_b";
                    start_gameData := g |})
  ∧ (∀ index, (2 ≤ index)%nat → click_option index shown = None)
  ∧ (∀ loader opt,
       handleDialogueOption
         {| gameData := None; currentSceneId := sceneId;
            assetLoader := loader |} opt
       = None).
Proof.
  intros g this shown. split_and!; try reflexivity.
  intros index Hindex. unfold click_option. subst shown. cbn.
  destruct index as [|[|index]]; [lia|lia|reflexivity].
Qed.
